(** * scrape-schedule.js: extraction, aggregation and first-seen tracking

    A shallow embedding of the schedule engine of [src/scrape-schedule.js]:
    the cell tokenizer, the row extractor, the per-location aggregator,
    [buildDateTable] and the two cache loaders, with the properties the
    specification states about them; then the loop of [main] that stars
    what is new and the address helpers, with further properties of the
    code.

    Texts are [string]s holding the UTF-8 bytes of the JavaScript text.  The
    patterns of the source only mention ASCII characters and the en dash,
    and such a pattern matches in the bytes where it matches in the text;
    white space is all of JavaScript's white space, in UTF-8, and the class
    [[^ ]] takes one code unit of the text.  Indices count bytes and only
    the letters A-Z have a lower case: these are JavaScript's on ASCII
    text. *)

From Stdlib Require Import ZArith Ascii String List Sorting.Sorted Permutation Lia.
From stdpp Require Import gmap strings list fin_maps.

Local Open Scope Z_scope.

(** ** The string primitives of JavaScript the source relies on *)

Module JS.

Definition is_digit (c : ascii) : bool :=
  let n := nat_of_ascii c in (48 <=? n)%nat && (n <=? 57)%nat.

Definition lower (c : ascii) : ascii :=
  let n := nat_of_ascii c in
  if (65 <=? n)%nat && (n <=? 90)%nat then ascii_of_nat (n + 32) else c.

(** [s.toLowerCase()] *)
Fixpoint toLowerCase (s : string) : string :=
  match s with
  | "" => ""
  | String c s' => String (lower c) (toLowerCase s')
  end.

(** [s.startsWith(p)] *)
Fixpoint startsWith (p s : string) : bool :=
  match p, s with
  | "", _ => true
  | String a p', String b s' => Ascii.eqb a b && startsWith p' s'
  | String _ _, "" => false
  end.

(** [s.includes(p)] *)
Fixpoint includes (p s : string) : bool :=
  startsWith p s || match s with "" => false | String _ s' => includes p s' end.

(** [s.indexOf(p)], -1 when [p] does not occur. *)
Fixpoint indexOf (p s : string) : Z :=
  if startsWith p s then 0
  else match s with
       | "" => -1
       | String _ s' => let i := indexOf p s' in if i <? 0 then -1 else i + 1
       end.

Fixpoint take (n : nat) (s : string) : string :=
  match n, s with
  | S n', String c s' => String c (take n' s')
  | _, _ => ""
  end.

Fixpoint drop (n : nat) (s : string) : string :=
  match n, s with
  | S n', String _ s' => drop n' s'
  | _, _ => s
  end.

(** [s.slice(from, to)]: a negative index counts from the end. *)
Definition slice (s : string) (from to : Z) : string :=
  let len := Z.of_nat (String.length s) in
  let clamp i := if i <? 0 then Z.max (len + i) 0 else Z.min i len in
  let a := clamp from in
  let b := clamp to in
  take (Z.to_nat (b - a)) (drop (Z.to_nat a) s).

(** [s.slice(from)] *)
Definition sliceFrom (s : string) (from : Z) : string :=
  slice s from (Z.of_nat (String.length s)).

(** [s.substring(0, to)]: indices are clamped to the text, never wrapped. *)
Definition substring0 (s : string) (to : Z) : string :=
  take (Z.to_nat (Z.min (Z.max to 0) (Z.of_nat (String.length s)))) s.

(** The white space of [trim], of [parseInt] and of the class [\s] is
    JavaScript's [WhiteSpace] and [LineTerminator]: the six ASCII characters
    tab, line feed, vertical tab, form feed, carriage return and space; the
    no-break space U+00A0, two bytes in UTF-8; and U+1680, U+2000 to U+200A,
    U+2028, U+2029, U+202F, U+205F, U+3000 and U+FEFF, three bytes each. *)
Definition byteIn (low high : nat) (c : ascii) : bool :=
  let n := nat_of_ascii c in (low <=? n)%nat && (n <=? high)%nat.

(** The bytes [a b c] are one of the white space characters of three bytes. *)
Definition wideSpace (a b c : ascii) : bool :=
  Ascii.eqb a "225" && Ascii.eqb b "154" && Ascii.eqb c "128"
  || Ascii.eqb a "226" && Ascii.eqb b "128"
     && (byteIn 128 138 c || Ascii.eqb c "168" || Ascii.eqb c "169" || Ascii.eqb c "175")
  || Ascii.eqb a "226" && Ascii.eqb b "129" && Ascii.eqb c "159"
  || Ascii.eqb a "227" && Ascii.eqb b "128" && Ascii.eqb c "128"
  || Ascii.eqb a "239" && Ascii.eqb b "187" && Ascii.eqb c "191".

(** The number of bytes of the white space character [s] begins with,
    0 when it begins with none. *)
Definition spaceWidth (s : string) : nat :=
  match s with
  | "" => 0
  | String a s1 =>
      if Ascii.is_space a then 1
      else match s1 with
           | "" => 0
           | String b s2 =>
               if Ascii.eqb a "194" && Ascii.eqb b "160" then 2
               else match s2 with
                    | "" => 0
                    | String c _ => if wideSpace a b c then 3 else 0
                    end
           end
  end.

(** [skip] is the number of bytes still to pass of the white space
    character that is being removed. *)
Fixpoint trimStart_go (skip : nat) (s : string) : string :=
  match s with
  | "" => ""
  | String _ s' =>
      match skip with
      | S k => trimStart_go k s'
      | O => match spaceWidth s with
             | O => s
             | S k => trimStart_go k s'
             end
      end
  end.

Definition trimStart (s : string) : string := trimStart_go 0 s.

(** The text up to the place from which there is white space only. *)
Fixpoint trimEnd (s : string) : string :=
  match s with
  | "" => ""
  | String c s' =>
      match trimStart s with
      | "" => ""
      | _ => String c (trimEnd s')
      end
  end.

(** [s.trim()] *)
Definition trim (s : string) : string := trimEnd (trimStart s).

(** The remainder of [s] after the prefix [p], when [s] starts with [p]. *)
Fixpoint stripPrefix (p s : string) : option string :=
  match p, s with
  | "", _ => Some s
  | String a p', String b s' => if Ascii.eqb a b then stripPrefix p' s' else None
  | String _ _, "" => None
  end.

(** The first alternative of [ps] that [s] starts with, stripped. *)
Fixpoint stripAny (ps : list string) (s : string) : option string :=
  match ps with
  | [] => None
  | p :: ps' =>
      match p, stripPrefix p s with
      | String _ _, Some rest => Some rest
      | _, _ => stripAny ps' s
      end
  end.

Fixpoint replaceAll_go (fuel : nat) (p r s : string) : string :=
  match fuel, s with
  | S fuel', String c s' =>
      match p, stripPrefix p s with
      | String _ _, Some rest => r +:+ replaceAll_go fuel' p r rest
      | _, _ => String c (replaceAll_go fuel' p r s')
      end
  | _, _ => s
  end.

(** [s.replace(/p/g, r)] for a literal, non-empty pattern [p]. *)
Definition replaceAll (p r s : string) : string :=
  replaceAll_go (String.length s) p r s.

Fixpoint split_go (fuel : nat) (seps : list string) (s : string) : list string :=
  match fuel, s with
  | S fuel', String c s' =>
      match stripAny seps s with
      | Some rest => "" :: split_go fuel' seps rest
      | None =>
          match split_go fuel' seps s' with
          | piece :: pieces => String c piece :: pieces
          | [] => [String c ""]
          end
      end
  | _, _ => [s]
  end.

(** [s.split(sep)] where [sep] is one of the literal alternatives [seps]. *)
Definition split (seps : list string) (s : string) : list string :=
  split_go (S (String.length s)) seps s.

(** [pieces.join(sep)] *)
Fixpoint join (sep : string) (pieces : list string) : string :=
  match pieces with
  | [] => ""
  | [p] => p
  | p :: ps => p +:+ sep +:+ join sep ps
  end.

(** The value of the longest prefix of digits in the given radix, if any. *)
Definition digitValue (radix : Z) (c : ascii) : option Z :=
  let n := Z.of_nat (nat_of_ascii c) in
  let v := if (48 <=? n) && (n <=? 57) then n - 48
           else if (97 <=? n) && (n <=? 122) then n - 87
           else if (65 <=? n) && (n <=? 90) then n - 55
           else radix in
  if v <? radix then Some v else None.

Fixpoint digits (radix : Z) (acc : option Z) (s : string) : option Z :=
  match s with
  | "" => acc
  | String c s' =>
      match digitValue radix c with
      | Some v => digits radix (Some (from_option id 0 acc * radix + v)) s'
      | None => acc
      end
  end.

(** [parseInt(s)]; [None] stands for [NaN]. *)
Definition parseInt (s : string) : option Z :=
  let s := trimStart s in
  let (sign, s) :=
    match s with
    | String "-" s' => (-1, s')
    | String "+" s' => (1, s')
    | _ => (1, s)
    end in
  let (radix, s) :=
    match s with
    | String "0" (String "x" s') | String "0" (String "X" s') => (16, s')
    | _ => (10, s)
    end in
  Z.mul sign <$> digits radix None s.

(** A regular expression of the source is embedded as the test whether
    a match starts at the head of the text. *)
Definition regex := string → bool.

(** [s.search(re)], -1 when nothing matches. *)
Fixpoint search (re : regex) (s : string) : Z :=
  if re s then 0
  else match s with
       | "" => -1
       | String _ s' => let i := search re s' in if i <? 0 then -1 else i + 1
       end.

(** [re.test(s)] *)
Definition test (re : regex) (s : string) : bool := 0 <=? search re s.

(** A case-insensitive alternation of lower-case words, [/(w1|w2|...)/i]. *)
Definition anyWord (words : list string) : regex :=
  fun s => existsb (fun w => startsWith w (toLowerCase (take (String.length w) s))) words.

(** [String(v)] for a value that may be [undefined]. *)
Definition toString (v : option string) : string := from_option id "undefined" v.

(** [a[i]] on an array, [undefined] outside of it. *)
Definition at_index {A} (a : list A) (i : Z) : option A :=
  if i <? 0 then None else a !! Z.to_nat i.

End JS.

(** ** Constants of the module *)

Definition defaultDays : list string :=
  ["Monday"; "Tuesday"; "Wednesday"; "Thursday"; "Friday"; "Saturday"; "Sunday"].

Definition CAPTION_REGEX : JS.regex :=
  JS.anyWord ["starting"; "until"; "january"; "february"; "march"; "april"; "may";
              "june"; "july"; "august"; "september"; "october"; "november";
              "december"].

(** ** The evenings-and-weekends filter *)

Definition eveningsAndWeekends (day : option string) (time : string) : bool :=
  if JS.test (JS.anyWord ["sat"; "sun"]) (JS.toString day) then true
  else if negb (JS.includes "pm" time) then false
  else match JS.parseInt time with
       | Some startTime => negb (startTime =? 12) && (5 <=? startTime) && (startTime <? 10)
       | None => false
       end.

(** ** Cell text to time tokens (the [td] callback of [main]) *)

(** The class [[^ ]] takes one UTF-16 code unit: when the character after
    the hyphen has two or three bytes in UTF-8, the bytes that follow its
    first one belong to the match; a character of four bytes is two code
    units, and only the first is taken. *)
Definition tailBytes (b : ascii) : nat :=
  let n := nat_of_ascii b in
  if (n <? 192)%nat then 0%nat
  else if (n <? 224)%nat then 1%nat
  else if (n <? 240)%nat then 2%nat
  else 0%nat.

(** [.replace(/([^ ])-([^ ])/g, '$1 - $2')]; [skip] is the number of bytes
    still to copy of the character that ends the last match. *)
Fixpoint spaceDashes_go (skip : nat) (s : string) : string :=
  match s with
  | "" => ""
  | String a s' =>
      match skip with
      | S k => String a (spaceDashes_go k s')
      | O =>
          match s' with
          | String d (String b rest) =>
              if negb (Ascii.eqb a " ") && Ascii.eqb d "-" && negb (Ascii.eqb b " ")
              then String a (" - " +:+ String b (spaceDashes_go (tailBytes b) rest))
              else String a (spaceDashes_go 0 s')
          | _ => String a (spaceDashes_go 0 s')
          end
      end
  end.

Definition spaceDashes (s : string) : string := spaceDashes_go 0 s.

(** [.split(/(,|\n+|,)/)]: the separator is captured, so the commas and the
    runs of newlines are themselves elements of the result. *)
Fixpoint splitCells (s : string) : list string :=
  match s with
  | "" => [""]
  | String c s' =>
      let r := splitCells s' in
      if Ascii.eqb c "," then "" :: "," :: r
      else if Ascii.eqb c "010" then
        match s', r with
        | String c' _, _ :: run :: pieces =>
            if Ascii.eqb c' "010" then "" :: String c run :: pieces
            else "" :: String c "" :: r
        | _, _ => "" :: String c "" :: r
        end
      else match r with
           | piece :: pieces => String c piece :: pieces
           | [] => [String c ""]
           end
  end.

(** The text as it is split: lower case, "noon" spelt "12 pm", en dashes
    turned into hyphens, a space on both sides of a hyphen. *)
Definition normalizeCell (text : string) : string :=
  spaceDashes
    (JS.replaceAll "–" "-"
       (JS.replaceAll "noon" "12 pm" (JS.toLowerCase text))).

Definition candidates (text : string) : list string :=
  JS.trim <$> splitCells (normalizeCell text).

Definition startsWithInt (time : string) : bool := bool_decide (is_Some (JS.parseInt time)).

(** [e] is the flag [flags.e]; [day] is [days[actualIndex]]. *)
Definition cellSchedule (e : bool) (day : option string) (text : string) : list string :=
  List.filter (if e then eveningsAndWeekends day else fun _ => true)
    (List.filter startsWithInt (candidates text)).

(** ** Tables, rows and the row extractor (the [tr] callback of [main]) *)

(** What the callback reads of the table a row belongs to: the texts of
    the cells [thead tr th], of the cells [tbody tr:first-of-type td], and
    of the [caption] (empty when there is none). *)
Record Table := {
  theadTh : list string;
  firstRowTd : list string;
  tableCaption : string
}.

(** What the callback reads of a row: the texts of its [th] and [td] cells. *)
Record Row := {
  rowTh : list string;
  rowTd : list string
}.

(** What [main] reads of the page before it looks at the rows. *)
Record Page := {
  pageLocation : string;
  pageLink : option string;
  pageHome : string;
  pageAddress : string
}.

(** The text of a selection is the concatenation of the texts of its
    elements. *)
Definition text (cells : list string) : string := foldr String.append "" cells.

Definition nonEmpty (s : string) : bool := negb (String.eqb s "").

Definition getDays (table : Table) : list string :=
  let labels (dayRow : list string) := List.filter nonEmpty (JS.trim <$> dayRow) in
  if JS.includes "Monday" (text (theadTh table)) then labels (theadTh table)
  else if JS.includes "Monday" (text (firstRowTd table)) then labels (firstRowTd table)
  else defaultDays.

(** [.replace(/\s+/g, ' ')]: a space for each run of white space, written
    where the run ends; [skip] is the number of bytes still to pass of the
    white space character at hand. *)
Fixpoint collapseSpaces_go (skip : nat) (s : string) : string :=
  match s with
  | "" => ""
  | String c s' =>
      match skip with
      | S k => collapseSpaces_go k s'
      | O =>
          match JS.spaceWidth s with
          | O => String c (collapseSpaces_go 0 s')
          | S k =>
              match JS.spaceWidth (JS.drop (S k) s) with
              | O => String " " (collapseSpaces_go k s')
              | S _ => collapseSpaces_go k s'
              end
          end
      end
  end.

Definition collapseSpaces (s : string) : string := collapseSpaces_go 0 s.

Definition headName (row : Row) : string := collapseSpaces (text (rowTh row)).

Definition activityIsHead (row : Row) : bool := nonEmpty (headName row).

Definition actualIndex (isHead : bool) (index : Z) : Z :=
  index - (if isHead then 0 else 1).

(** One element of the array the [td] cells are mapped to. *)
Record DaySchedule := {
  day : option string;
  schedule : list string
}.

Definition cellEntry (e : bool) (days : list string) (isHead : bool)
    (index : nat) (cellText : string) : DaySchedule :=
  let i := actualIndex isHead (Z.of_nat index) in
  {| day := JS.at_index days i;
     schedule := cellSchedule e (JS.at_index days i) cellText |}.

Definition cellEntries (e : bool) (days : list string) (row : Row) : list DaySchedule :=
  imap (cellEntry e days (activityIsHead row)) (rowTd row).

(** The [reduce] that turns the entries into the object [schedules]. *)
Definition toSchedules (entries : list DaySchedule) : gmap string (list string) :=
  foldl (fun result current =>
           match schedule current with
           | [] => result
           | _ :: _ => <[JS.toString (day current) := schedule current]> result
           end) ∅ entries.

Record Activity := {
  location : string;
  link : option string;
  home : string;
  address : string;
  activity : string;
  schedules : gmap string (list string);
  coordinates : option (string * string)
}.

Definition tableCaptionClause (table : Table) : option string :=
  let caption := tableCaption table in
  if JS.test CAPTION_REGEX caption
  then Some (JS.sliceFrom caption (JS.search CAPTION_REGEX caption))
  else None.

Definition activityName (row : Row) : string :=
  if activityIsHead row then headName row
  else collapseSpaces (from_option id "" (head (rowTd row))).

Definition extractRow (e : bool) (page : Page) (table : Table) (row : Row) : Activity :=
  let days := getDays table in
  {| location :=
       JS.join " " (List.filter nonEmpty
                      [pageLocation page; from_option id "" (tableCaptionClause table)]);
     link := pageLink page;
     home := pageHome page;
     address := pageAddress page;
     activity := activityName row;
     schedules := toSchedules (cellEntries e days row);
     coordinates := None |}.

(** [.filter((x) => JSON.stringify(x.schedules) !== '{}')] over the rows
    that mention Pickleball. *)
Definition pageActivities (e : bool) (page : Page) (rows : list (Table * Row))
    : list Activity :=
  List.filter (fun x => negb (bool_decide (schedules x = ∅)))
    ((fun tr => extractRow e page (fst tr) (snd tr)) <$>
       List.filter (fun tr => JS.includes "Pickleball"
                                (text (rowTh (snd tr)) +:+ text (rowTd (snd tr)))) rows).

(** ** The aggregation by location (the [reduce] of [main]) *)

(** An entry of [resultsByLocation]: the four fixed properties, and the
    properties named after days.  No day is called link, home, address or
    coordinates, so the two groups are kept apart. *)
Record Location := {
  locLink : option string;
  locHome : string;
  locAddress : string;
  locCoordinates : option (string * string);
  locDays : gmap string (list string)
}.

(** A JavaScript object whose enumeration order matters is a list of its
    properties in that order: assigning to an existing key keeps its place,
    a new key goes last.  (Location names are not written as array indices,
    which JavaScript would enumerate first; and a location named
    "__proto__" is kept like the others here, where JavaScript sets the
    prototype of the object, reads it back under that name, and enumerates
    no such key: statements about the keys of the object leave that name
    out.) *)
Fixpoint assign {A} (key : string) (value : A) (object : list (string * A))
    : list (string * A) :=
  match object with
  | [] => [(key, value)]
  | (k, v) :: object' =>
      if String.eqb k key then (key, value) :: object'
      else (k, v) :: assign key value object'
  end.

Fixpoint property {A} (key : string) (object : list (string * A)) : option A :=
  match object with
  | [] => None
  | (k, v) :: object' => if String.eqb k key then Some v else property key object'
  end.

(** [.replace(/ ?: ?/g, ':')] *)
Fixpoint fixColons (s : string) : string :=
  match s with
  | "" => ""
  | String c s1 =>
      if Ascii.eqb c ":" then
        String ":" match s1 with
                   | String c1 s2 => if Ascii.eqb c1 " " then fixColons s2 else fixColons s1
                   | "" => ""
                   end
      else if Ascii.eqb c " " then
        match s1 with
        | String c1 s2 =>
            if Ascii.eqb c1 ":" then
              String ":" match s2 with
                         | String c2 s3 => if Ascii.eqb c2 " " then fixColons s3 else fixColons s2
                         | "" => ""
                         end
            else String c (fixColons s1)
        | "" => String c ""
        end
      else String c (fixColons s1)
  end.

(** The label a time range carries in the output. *)
Definition labeledRange (activityName time : string) : string :=
  fixColons time +:+ " (" +:+ JS.trim activityName +:+ ")".

(** A parser of 12-hour times to run the examples with, where the source
    calls [moment(text, ['h:mm a', 'h a'])]: the minutes after midnight of
    an hour of one or two digits, then possibly a colon and the minutes,
    then the first letter a or p; [None] stands for an invalid date, whose
    value is [NaN].  It is not the moment library, which reads some texts
    otherwise: the aggregation is modelled for any parser, and the examples
    only show that the hypotheses of the statements can be met. *)
Definition moment12h (text : string) : option Z :=
  let twoDigits (s : string) : option (Z * string) :=
    match s with
    | String a (String b rest) =>
        if JS.is_digit a && JS.is_digit b then
          Some (from_option id 0 (JS.digits 10 None (JS.take 2 s)), rest)
        else if JS.is_digit a then
          Some (from_option id 0 (JS.digits 10 None (JS.take 1 s)), String b rest)
        else None
    | String a "" =>
        if JS.is_digit a then Some (from_option id 0 (JS.digits 10 None s), "") else None
    | "" => None
    end in
  '(h, rest) ← twoDigits (JS.sliceFrom text (JS.search (fun s => match s with
                                                             | String c _ => JS.is_digit c
                                                             | "" => false
                                                             end) text));
  let '(m, rest) :=
    match rest with
    | String ":" rest' => from_option id (0, rest) (twoDigits rest')
    | _ => (0, rest)
    end in
  let i := JS.search (JS.anyWord ["a"; "p"]) rest in
  let pm := JS.startsWith "p" (JS.toLowerCase (JS.sliceFrom rest i)) in
  let hour :=
    if i <? 0 then h
    else if pm then (if h <? 12 then h + 12 else h)
    else (if h =? 12 then 0 else h) in
  if (hour <=? 24) && (m <=? 59) then Some (hour * 60 + m) else None.

Section Aggregator.

(** [moment(text, ['h:mm a', 'h a']).valueOf()] is the moment library's;
    the aggregation is modelled for any such function. *)
Variable moment : string → option Z.

(** [getTime(x)]: [None] when there is no dash in [x], where
    [x.split(/[–-]/)[1]] is [undefined] and [.substring] throws a
    TypeError; otherwise the value of the moment, [None] for [NaN]. *)
Definition getTime (x : string) : option (option Z) :=
  piece ← JS.split ["–"; "-"] x !! 1%nat;
  Some (moment
          (JS.trim
             (JS.substring0 piece
                (Z.max (JS.indexOf "am" x) (JS.indexOf "pm" x + 2))))).

(** The comparison function given to [sort]: [getTime(a) - getTime(b)];
    a [NaN] difference counts as 0 for [Array.prototype.sort]. *)
Definition compareTimes (a b : string) : option Z :=
  ta ← getTime a;
  tb ← getTime b;
  Some match ta, tb with
       | Some u, Some v => u - v
       | _, _ => 0
       end.

(** [Array.prototype.sort] is stable; with a consistent comparison its
    result is the one of any stable sort, here insertion from the right.
    The result is [None] when the comparison function throws.  When some
    differences are [NaN] and others are not, the comparison is not
    consistent and JavaScript leaves the order to the implementation: the
    order of this model is then one of the possible ones, and no statement
    below relies on it. *)
Fixpoint insertSorted (x : string) (sorted : list string) : option (list string) :=
  match sorted with
  | [] => Some [x]
  | y :: rest =>
      c ← compareTimes x y;
      if c <=? 0 then Some (x :: y :: rest)
      else cons y <$> insertSorted x rest
  end.

Fixpoint sortByTime (xs : list string) : option (list string) :=
  match xs with
  | [] => Some []
  | x :: xs' => sortByTime xs' ≫= insertSorted x
  end.

(** The body of [defaultDays.forEach] for one day. *)
Definition daySchedule (acc : list (string * Location)) (a : Activity)
    (day : string) : option (list string) :=
  sortByTime
    (from_option id [] (property (location a) acc ≫= fun l => locDays l !! day)
     ++ (labeledRange (activity a) <$> from_option id [] (schedules a !! day))).

Definition addDay (acc : list (string * Location)) (a : Activity)
    (days : option (gmap string (list string))) (day : string)
    : option (gmap string (list string)) :=
  days ← days;
  times ← daySchedule acc a day;
  Some match times with
       | [] => days
       | _ :: _ => <[day := times]> days
       end.

(** One step of the [reduce]. *)
Definition addActivity (acc : list (string * Location)) (a : Activity)
    : option (list (string * Location)) :=
  days ← foldl (addDay acc a) (Some ∅) defaultDays;
  Some (assign (location a)
          {| locLink := link a;
             locHome := home a;
             locAddress := address a;
             locCoordinates := coordinates a;
             locDays := days |} acc).

Definition resultsByLocation (results : list Activity)
    : option (list (string * Location)) :=
  foldl (fun acc a => acc ≫= fun acc => addActivity acc a) (Some []) results.

End Aggregator.

(** ** First-seen times: [buildDateTable] *)

(** [Date.now()] is read from the clock each time it is called: a
    computation takes the number of readings made so far and returns it
    updated. *)
Definition Timed (A : Type) : Type := nat → A * nat.

Global Instance Timed_ret : MRet Timed := fun A x n => (x, n).
Global Instance Timed_bind : MBind Timed :=
  fun A B f m n => let (x, n') := m n in f x n'.

(** [for (const x of xs) body], threading the value built so far. *)
Fixpoint forOf {A S} (body : S → A → Timed S) (xs : list A) (s : S) : Timed S :=
  match xs with
  | [] => mret s
  | x :: xs' => body s x ≫= forOf body xs'
  end.

(** [locationName.slice(0, locationName.search(CAPTION_REGEX)).trim()] *)
Definition baseName (locationName : string) : string :=
  JS.trim (JS.slice locationName 0 (JS.search CAPTION_REGEX locationName)).

(** [time.split(' (')[0]] *)
Definition timeWithoutActivity (time : string) : string :=
  from_option id "" (head (JS.split [" ("] time)).

Definition noveltyKey (name day time : string) : string :=
  name +:+ "|" +:+ day +:+ "|" +:+ timeWithoutActivity time.

Section NoveltyTracker.

(** The successive readings of the clock, in milliseconds. *)
Variable clock : nat → Z.

Definition Date_now : Timed Z := fun n => (clock n, S n).

(** [previous[key] || Date.now()]: 0 is falsy, as is a missing key. *)
Definition olderDate (previous : gmap string Z) (key : string) : Timed Z :=
  match previous !! key with
  | Some date => if date =? 0 then Date_now else mret date
  | None => Date_now
  end.

Definition stampTime (previous : gmap string Z) (name day : string)
    (result : gmap string Z) (time : string) : Timed (gmap string Z) :=
  let key := noveltyKey name day time in
  date ← olderDate previous key;
  mret (<[key := date]> result).

Definition stampDay (previous : gmap string Z) (name : string) (location : Location)
    (result : gmap string Z) (day : string) : Timed (gmap string Z) :=
  match locDays location !! day with
  | None => mret result
  | Some times => forOf (stampTime previous name day) times result
  end.

Definition stampLocation (previous : gmap string Z) (result : gmap string Z)
    (entry : string * Location) : Timed (gmap string Z) :=
  let (locationName, location) := entry in
  forOf (stampDay previous (baseName locationName) location) defaultDays result.

Definition buildDateTable (previous : gmap string Z)
    (current : list (string * Location)) : Timed (gmap string Z) :=
  forOf (stampLocation previous) current ∅.

(** What the innermost loop does with one key. *)
Definition stampKey (previous : gmap string Z) (result : gmap string Z) (key : string)
    : Timed (gmap string Z) :=
  date ← olderDate previous key;
  mret (<[key := date]> result).

End NoveltyTracker.

(** ** The cache loaders: [getPreviousTimes] and [getPreviousSchedule] *)

(** What [readFile] hands to its callback: an error, or the text read. *)
Inductive ReadResult :=
  | ReadError (err : string)
  | ReadData (data : string).

(** A promise is settled once: later calls of [resolve] and [reject] are
    ignored. *)
Inductive Promise (A : Type) :=
  | Pending
  | Fulfilled (value : A)
  | Rejected (reason : string).
Global Arguments Pending {A}.
Global Arguments Fulfilled {A} value.
Global Arguments Rejected {A} reason.

Definition resolve {A} (value : A) (p : Promise A) : Promise A :=
  match p with Pending => Fulfilled value | _ => p end.

Definition reject {A} (reason : string) (p : Promise A) : Promise A :=
  match p with Pending => Rejected reason | _ => p end.

Section Loaders.

(** [JSON.parse] into the kind of value a cache file holds, [None] when
    it throws, and the value of [{}]. *)
Context {A : Type} (JSON_parse : string → option A) (emptyObject : A).

(** The callback given to [readFile]. *)
Definition onRead (result : ReadResult) (p : Promise A) : Promise A :=
  let err := match result with ReadError e => Some e | ReadData _ => None end in
  let data := match result with ReadError _ => "" | ReadData d => d end in
  let p := match err with Some e => reject e p | None => p end in
  match JSON_parse (if nonEmpty data then data else "{}") with
  | Some value => resolve value p
  | None => resolve emptyObject p
  end.

Definition getPreviousTimes (readFile : string → ReadResult) : Promise A :=
  onRead (readFile "./cache/date-scraped.json") Pending.

Definition getPreviousSchedule (readFile : string → ReadResult) : Promise A :=
  onRead (readFile "./cache/schedule.json") Pending.

End Loaders.

(** ** Notions used in the statements *)

(** The location name with its caption clause removed: the text before the
    first caption keyword, trimmed; the whole name when there is none. *)
Definition stripCaption (locationName : string) : string :=
  if JS.test CAPTION_REGEX locationName
  then JS.trim (JS.slice locationName 0 (JS.search CAPTION_REGEX locationName))
  else locationName.

(** The keys of a schedule in the order [buildDateTable] meets them, for a
    given way to name a location. *)
Definition keysWith (nameOf : string → string) (current : list (string * Location))
    : list string :=
  entry ← current;
  day ← defaultDays;
  noveltyKey (nameOf entry.1) day <$> from_option id [] (locDays entry.2 !! day).

(** The labeled ranges given to a day of a location, in the order the
    activities bring them. *)
Definition rangesOf (results : list Activity) (name day : string) : list string :=
  a ← results;
  if decide (location a = name)
  then labeledRange (activity a) <$> from_option id [] (schedules a !! day)
  else [].

(** [acc[name]?.[day] || []] *)
Definition dayList (acc : list (string * Location)) (name day : string) : list string :=
  from_option id [] (property name acc ≫= fun l => locDays l !! day).

(** [c] occurs in [w]. *)
Fixpoint hasChar (c : ascii) (w : string) : bool :=
  match w with
  | "" => false
  | String x w' => Ascii.eqb c x || hasChar c w'
  end.

(** [c] is a byte of no white space character: an ASCII character other
    than the six white ones. *)
Definition plain (c : ascii) : bool :=
  negb (Ascii.is_space c) && (nat_of_ascii c <? 128)%nat.

(** The last byte of [w] is plain: no white space character ends [w]. *)
Fixpoint plainEnd (w : string) : bool :=
  match w with
  | "" => false
  | String c "" => plain c
  | String _ w' => plainEnd w'
  end.

(** The pattern [/([^ ])-([^ ])/] matches at the head of [s]. *)
Definition dashed (s : string) : bool :=
  match s with
  | String a (String d (String b _)) =>
      negb (Ascii.eqb a " ") && Ascii.eqb d "-" && negb (Ascii.eqb b " ")
  | _ => false
  end.

(** ** Inputs of the examples *)

Definition nepean : Page :=
  {| pageLocation := "Nepean Sportsplex";
     pageLink := None;
     pageHome := "https://ottawa.ca/en/recreation-and-parks/facilities/place-listing/nepean-sportsplex";
     pageAddress := "1701 Woodroffe Avenue Ottawa ON K2G 1W2" |}.

Definition mondayTuesdayTable : Table :=
  {| theadTh := ["Monday"; "Tuesday"]; firstRowTd := []; tableCaption := "" |}.

(** A table without day labels: its columns are the days of the week. *)
Definition unlabelledTable : Table :=
  {| theadTh := []; firstRowTd := []; tableCaption := "" |}.

Definition headedRow : Row :=
  {| rowTh := ["Pickleball"]; rowTd := ["1-2pm"; "3-4:30pm"] |}.

Definition plainRow : Row :=
  {| rowTh := []; rowTd := ["Pickleball"; "1-2pm"; "3-4:30pm"] |}.

Definition seniorsRow : Row :=
  {| rowTh := []; rowTd := ["55+ Pickleball"; "6-8pm"] |}.

(** Two sessions of one evening in one cell, the later one first. *)
Definition eveningRow : Row :=
  {| rowTh := ["Pickleball"]; rowTd := ["7-9 pm, 6-9 pm"] |}.

Definition onDays (days : list (string * list string)) : Location :=
  {| locLink := None; locHome := ""; locAddress := ""; locCoordinates := None;
     locDays := list_to_map days |}.

Definition captionedSchedule : list (string * Location) :=
  [("Foo starting May", onDays [("Monday", ["1 - 2pm (Pickleball)"])])].

(** The schedule of a location whose name has no caption. *)
Definition nepeanSchedule : list (string * Location) :=
  [("Nepean Sportsplex", onDays [("Monday", ["1 - 2 pm (Pickleball)"])])].

(** What the row extractor gives for [eveningRow] on the page [nepean]. *)
Definition eveningActivity : Activity :=
  {| location := "Nepean Sportsplex"; link := None;
     home := pageHome nepean; address := pageAddress nepean;
     activity := "Pickleball";
     schedules := {[ "Monday" := ["7 - 9 pm"; "6 - 9 pm"] ]};
     coordinates := None |}.

Definition fundayActivity : Activity :=
  {| location := "Nepean Sportsplex"; link := None; home := ""; address := "";
     activity := "Pickleball";
     schedules := <["Monday" := ["1 - 2 pm"]]> (<["Funday" := ["3 - 4 pm"]]> ∅);
     coordinates := None |}.

Definition steadyClock (i : nat) : Z := 1700000000000 + Z.of_nat i.

(** ** Further notions used in the statements *)

(** Every character of [s] satisfies [P]. *)
Fixpoint allOf (P : ascii → bool) (s : string) : bool :=
  match s with
  | "" => true
  | String c s' => P c && allOf P s'
  end.





(** No candidate of the cell begins with an integer. *)
Definition noTimes (cell : string) : bool :=
  match List.filter startsWithInt (candidates cell) with
  | [] => true
  | _ :: _ => false
  end.

(** The text before the first place where one of [seps] matches. *)
Fixpoint upTo (seps : list string) (s : string) : string :=
  match s with
  | "" => ""
  | String c s' =>
      match JS.stripAny seps s with
      | Some _ => ""
      | None => String c (upTo seps s')
      end
  end.

(** One of [seps] matches somewhere in [s]. *)
Fixpoint matchesIn (seps : list string) (s : string) : bool :=
  match s with
  | "" => false
  | String _ s' =>
      match JS.stripAny seps s with
      | Some _ => true
      | None => matchesIn seps s'
      end
  end.

(** A match of [re] that begins before [t], in a text that ends with [t],
    ends before [t]. *)
Definition within (re : JS.regex) (t : string) : Prop := ∀ u, re (u +:+ t) = re u.

Section SortNotions.

Variable moment : string → option Z.

(** [getTime] can be applied to [x]: [x] has a dash. *)
Definition hasDash (x : string) : bool :=
  match getTime moment x with Some _ => true | None => false end.

End SortNotions.

Definition closedRow : Row :=
  {| rowTh := ["Pickleball"]; rowTd := ["Closed"; "Closed for the season"] |}.

Definition captionedTable : Table :=
  {| theadTh := ["Monday"; "Tuesday"]; firstRowTd := [];
     tableCaption := "Fall schedule starting September 3" |}.

Definition morningActivity : Activity :=
  {| location := "Nepean Sportsplex"; link := Some "https://reservation.example/nepean";
     home := "https://ottawa.ca/nepean"; address := "1701 Woodroffe Avenue Ottawa ON K2G 1W2";
     activity := "Pickleball 50+";
     schedules := {[ "Monday" := ["9 - 10 am"] ]};
     coordinates := None |}.

Definition twoActivities : list Activity := [fundayActivity; morningActivity].

Definition twoActivitiesAggregated : list (string * Location) :=
  from_option id [] (resultsByLocation moment12h twoActivities).

(** ** Marking what is new (the loop over [newTimes] in [main]) *)

(** One week, in milliseconds. *)
Definition NEW_TIMESLOT : Z := 7 * 24 * 60 * 60 * 1000.

(** The properties an object literal inherits from [Object.prototype]. *)
Definition inheritedNames : list string :=
  ["constructor"; "__defineGetter__"; "__defineSetter__"; "hasOwnProperty";
   "__lookupGetter__"; "__lookupSetter__"; "isPrototypeOf"; "propertyIsEnumerable";
   "toString"; "valueOf"; "__proto__"; "toLocaleString"].

(** What [resultsByLocation[location]?.[day]] can be: a falsy value, an
    array of ranges, or a truthy value that has no [map] method. *)
Inductive DayValue :=
| Falsy
| Times (times : list string)
| NoArray.

Definition dayValue (loc : Location) (day : string) : DayValue :=
  if String.eqb day "link" then
    match locLink loc with
    | Some url => if nonEmpty url then NoArray else Falsy
    | None => Falsy
    end
  else if String.eqb day "home" then (if nonEmpty (locHome loc) then NoArray else Falsy)
  else if String.eqb day "address" then (if nonEmpty (locAddress loc) then NoArray else Falsy)
  else if String.eqb day "coordinates" then
    match locCoordinates loc with Some _ => NoArray | None => Falsy end
  else match locDays loc !! day with
       | Some times => Times times
       | None => if bool_decide (day ∈ inheritedNames) then NoArray else Falsy
       end.

(** The callback of [map]: a star after a range that starts with [time]. *)
Definition markRange (time startEnd : string) : string :=
  if JS.startsWith time startEnd then startEnd +:+ "*" else startEnd.

(** The callback of [Object.keys(resultsByLocation).forEach]; [None] when
    it throws, calling [map] on a value that has none. *)
Definition markLocation (shortLocation day time : string) (entry : string * Location)
    : option (string * Location) :=
  let (name, loc) := entry in
  if negb (JS.includes shortLocation name) then Some entry
  else match dayValue loc day with
       | Falsy => Some entry
       | NoArray => None
       | Times times =>
           Some (name, {| locLink := locLink loc; locHome := locHome loc;
                          locAddress := locAddress loc;
                          locCoordinates := locCoordinates loc;
                          locDays := <[day := markRange time <$> times]> (locDays loc) |})
       end.

(** The body of the loop for a key that is new:
    [const [shortLocation, day, time] = key.split('|')], a missing piece
    being [undefined]. *)
Definition markKey (key : string) (current : list (string * Location))
    : option (list (string * Location)) :=
  let pieces := JS.split ["|"] key in
  mapM (markLocation (JS.toString (pieces !! 0%nat)) (JS.toString (pieces !! 1%nat))
          (JS.toString (pieces !! 2%nat))) current.

Section Annotation.

Variable clock : nat → Z.

(** One turn of [for (const key in newTimes)]; the schedule is [None] once
    a turn has thrown, which ends the loop. *)
Definition markNew (current : option (list (string * Location))) (entry : string * Z)
    : Timed (option (list (string * Location))) :=
  match current with
  | None => mret None
  | Some schedule =>
      now ← Date_now clock;
      mret (if now - entry.2 <? NEW_TIMESLOT then markKey entry.1 schedule
            else Some schedule)
  end.

(** [newTimes] is given by its entries in the order of enumeration. *)
Definition markNewTimes (newTimes : list (string * Z)) (current : list (string * Location))
    : Timed (option (list (string * Location))) :=
  forOf markNew newTimes (Some current).

End Annotation.

(** [k] stars. *)
Fixpoint stars (k : nat) : string :=
  match k with
  | O => ""
  | S k' => "*" +:+ stars k'
  end.

(** [r'] is [r] followed by at least [m] stars. *)
Definition starredBy (m : nat) (r r' : string) : Prop :=
  ∃ k, (m ≤ k)%nat ∧ r' = r +:+ stars k.

(** [loc'] is [loc] but for stars after some of its ranges. *)
Definition marked (loc loc' : Location) : Prop :=
  locLink loc' = locLink loc ∧ locHome loc' = locHome loc
  ∧ locAddress loc' = locAddress loc ∧ locCoordinates loc' = locCoordinates loc
  ∧ ∀ day, option_Forall2 (Forall2 (starredBy 0)) (locDays loc !! day) (locDays loc' !! day).

Definition annotated (current current' : list (string * Location)) : Prop :=
  Forall2 (fun entry entry' => entry'.1 = entry.1 ∧ marked entry.2 entry'.2)
    current current'.

(** The second piece of the key is a day of the week. *)
Definition weekdayKey (entry : string * Z) : bool :=
  bool_decide (JS.toString (JS.split ["|"] entry.1 !! 1%nat) ∈ defaultDays).

(** The ranges of the week days of [loc'] are those of [loc] followed by
    stars, at least one after a range whose key satisfies [K]. *)
Definition starredWhere (K : string → Prop) (name : string) (loc loc' : Location) : Prop :=
  ∀ day, day ∈ defaultDays →
    option_Forall2
      (Forall2 (fun r r' => ∃ k, r' = r +:+ stars k
                                 ∧ (K (noveltyKey (baseName name) day r) → (1 ≤ k)%nat)))
      (locDays loc !! day) (locDays loc' !! day).

Definition barFree (s : string) : bool := negb (hasChar "|" s).

(** [key] is an entry of [newTimes] that is less than a week old when the
    loop, started at reading [n] of the clock, comes to it. *)
Definition newIn (clock : nat → Z) (newTimes : list (string * Z)) (n : nat) (key : string)
    : Prop :=
  ∃ j date, newTimes !! j = Some (key, date) ∧ clock (n + j)%nat - date < NEW_TIMESLOT.

(** The keys in the order of their first insertion. *)
Fixpoint firstOccurrences (keys : list string) : list string :=
  match keys with
  | [] => []
  | key :: keys' =>
      key :: List.filter (fun k => negb (String.eqb k key)) (firstOccurrences keys')
  end.

(** The entries of [newTimes] as [for (const key in newTimes)] enumerates
    them: in the order in which [buildDateTable] first assigned the keys
    (a key holds a "|", so it is no array index). *)
Definition entriesOf (newTimes : gmap string Z) (current : list (string * Location))
    : list (string * Z) :=
  (fun key => (key, from_option id 0 (newTimes !! key)))
    <$> firstOccurrences (keysWith baseName current).

(** [buildDateTable(await getPreviousTimes(), resultsByLocation)] followed
    by the loop over its keys. *)
Definition annotate (clock : nat → Z) (previous : gmap string Z)
    (current : list (string * Location))
    : Timed (gmap string Z * option (list (string * Location))) :=
  newTimes ← buildDateTable clock previous current;
  schedule ← markNewTimes clock (entriesOf newTimes current) current;
  mret (newTimes, schedule).


(** ** Addresses *)

(** [s.split(/\s+/)]: the pieces between the runs of white space; [skip] is
    the number of bytes still to pass of the white space character at hand. *)
Fixpoint splitSpaces_go (skip : nat) (s : string) : list string :=
  match s with
  | "" => [""]
  | String c s' =>
      match skip with
      | S k => splitSpaces_go k s'
      | O =>
          match JS.spaceWidth s with
          | O =>
              match splitSpaces_go 0 s' with
              | piece :: pieces => String c piece :: pieces
              | [] => [String c ""]
              end
          | S k =>
              match JS.spaceWidth (JS.drop (S k) s) with
              | O => "" :: splitSpaces_go k s'
              | S _ => splitSpaces_go k s'
              end
          end
      end
  end.

Definition splitSpaces (s : string) : list string := splitSpaces_go 0 s.

(** [`${streetAddress} ${addressDetails}`.split(/\s+/g).join(' ')] *)
Definition addressOf (streetAddress addressDetails : string) : string :=
  JS.join " " (splitSpaces (streetAddress +:+ " " +:+ addressDetails)).

(** [pieces.slice(0, to)] on an array, for a negative [to]. *)
Definition sliceArray0 {A} (pieces : list A) (to : Z) : list A :=
  let len := Z.of_nat (length pieces) in
  firstn (Z.to_nat (if to <? 0 then Z.max (len + to) 0 else Z.min to len)) pieces.

(** [address.split(/\s+/).slice(0, -2).join(' ')] *)
Definition addressWithoutPostalCode (address : string) : string :=
  JS.join " " (sliceArray0 (splitSpaces address) (-2)).

(** No white space character begins anywhere in [w]. *)
Fixpoint spaceFree (w : string) : bool :=
  match w with
  | "" => true
  | String _ w' => Nat.eqb (JS.spaceWidth w) 0 && spaceFree w'
  end.

(** A word: not empty and free of white space. *)
Definition isWord (w : string) : bool := nonEmpty w && spaceFree w.

(** ** Further example inputs *)


(** The keys of [twoActivitiesAggregated], first seen long ago. *)
Definition seenBefore : gmap string Z :=
  {[ "Nepean Sportsple|Monday|9 - 10 am" := 1600000000000;
     "Nepean Sportsple|Monday|1 - 2 pm" := 1600000000000 ]}.

(** One entry of [newTimes], first seen long ago, or just now. *)
Definition seenLongAgo : list (string * Z) :=
  [("Nepean Sportsple|Monday|1 - 2 pm", 1600000000000)].

Definition seenJustNow : list (string * Z) :=
  [("Nepean Sportsple|Monday|1 - 2 pm", 1700000000000)].

Definition woodroffe : list string :=
  ["1701"; "Woodroffe"; "Avenue"; "Ottawa"; "ON"; "K2G"; "1W2"].

(** * Properties *)

Import JS.
Local Arguments Ascii.eqb : simpl never.

(** ** Facts about the string primitives *)

Lemma string_length_ind (P : string → Prop) :
  (∀ s, (∀ s', (String.length s' < String.length s)%nat → P s') → P s) → ∀ s, P s.
Proof.
  intros H s. remember (String.length s) as n eqn:Hn.
  revert s Hn. induction n as [n IH] using lt_wf_ind. intros s ->.
  apply H. intros s' Hlt. eapply IH; eauto.
Qed.

Lemma startsWith_cons x w c s :
  startsWith (String x w) (String c s) = true ↔ x = c ∧ startsWith w s = true.
Proof.
  simpl. rewrite andb_true_iff. split; intros [H1 H2]; split; auto.
  - now apply Ascii.eqb_eq. - now apply Ascii.eqb_eq.
Qed.

Lemma startsWith_empty x w : startsWith (String x w) "" = false.
Proof. reflexivity. Qed.

Lemma includes_cons w c s :
  includes w (String c s) = startsWith w (String c s) || includes w s.
Proof. destruct w; reflexivity. Qed.

Lemma includes_here w s : startsWith w s = true → includes w s = true.
Proof. intros H. destruct s; simpl; rewrite H; reflexivity. Qed.

Lemma includes_later w c s : includes w s = true → includes w (String c s) = true.
Proof. intros H. rewrite includes_cons, H. apply orb_true_r. Qed.

Lemma includes_app_r w a s : includes w s = true → includes w (a +:+ s) = true.
Proof. intros H. induction a; simpl; [assumption|]. now apply includes_later. Qed.

Lemma startsWith_app_l w s b : startsWith w s = true → startsWith w (s +:+ b) = true.
Proof.
  revert s; induction w as [|x w IH]; intros s; [reflexivity|].
  destruct s as [|c s]; [discriminate|].
  rewrite startsWith_cons. intros [-> H]. simpl. rewrite Ascii.eqb_refl. simpl. auto.
Qed.

Lemma includes_app_l w s b : includes w s = true → includes w (s +:+ b) = true.
Proof.
  induction s as [|c s IH].
  - simpl. rewrite orb_false_r. intros H. destruct w; [|discriminate].
    destruct b; reflexivity.
  - rewrite includes_cons. intros [H|H]%orb_true_iff.
    + apply includes_here. now apply (startsWith_app_l w (String c s) b).
    + simpl. apply includes_later. auto.
Qed.

Lemma includes_empty x w : includes (String x w) "" = false.
Proof. reflexivity. Qed.

(** An occurrence of [w] cannot begin inside [r] when the first character
    of [w] does not occur in [r]. *)
Lemma includes_skip x w r s :
  hasChar x r = false → includes (String x w) (r +:+ s) = includes (String x w) s.
Proof.
  induction r as [|c r IH]; [reflexivity|].
  simpl hasChar. intros [Hc Hr]%orb_false_elim.
  change (String c r +:+ s) with (String c (r +:+ s)).
  rewrite includes_cons, (IH Hr). simpl startsWith. rewrite Hc. reflexivity.
Qed.

Lemma stripPrefix_app p s rest : stripPrefix p s = Some rest → s = p +:+ rest.
Proof.
  revert s; induction p as [|a p IH]; intros s; simpl.
  - intros [= ->]. reflexivity.
  - destruct s as [|b s]; [discriminate|].
    destruct (Ascii.eqb_spec a b) as [->|]; [|discriminate].
    intros H. now rewrite (IH _ H).
Qed.

Lemma stripPrefix_startsWith p s : startsWith p s = true ↔ is_Some (stripPrefix p s).
Proof.
  revert s; induction p as [|a p IH]; intros s; simpl.
  - split; eauto.
  - destruct s as [|b s]; [split; [discriminate|intros [? [=]]]|].
    destruct (Ascii.eqb_spec a b) as [->|]; simpl; [apply IH|].
    split; [discriminate|intros [? [=]]].
Qed.

Lemma length_app_string a b : String.length (a +:+ b) = (String.length a + String.length b)%nat.
Proof. induction a; simpl; auto. Qed.

(** *** Global replacement *)

Section ReplaceAll.
Variables (p0 : ascii) (p' r : string).
Let p := String p0 p'.

Lemma replaceAll_go_S fuel c s :
  replaceAll_go (S fuel) p r (String c s)
  = match stripPrefix p (String c s) with
    | Some rest => r +:+ replaceAll_go fuel p r rest
    | None => String c (replaceAll_go fuel p r s)
    end.
Proof. reflexivity. Qed.

Lemma stripPrefix_shorter c s rest :
  stripPrefix p (String c s) = Some rest → (String.length rest ≤ String.length s)%nat.
Proof.
  intros H%stripPrefix_app. apply (f_equal String.length) in H.
  subst p. rewrite length_app_string in H. simpl in H. lia.
Qed.

Lemma replaceAll_go_enough fuel1 fuel2 s :
  (String.length s ≤ fuel1)%nat → (String.length s ≤ fuel2)%nat →
  replaceAll_go fuel1 p r s = replaceAll_go fuel2 p r s.
Proof.
  revert fuel2 s; induction fuel1 as [|fuel1 IH]; intros fuel2 s H1 H2.
  - destruct s; [|simpl in H1; lia]. destruct fuel2; reflexivity.
  - destruct s as [|c s]; [destruct fuel2; reflexivity|].
    destruct fuel2 as [|fuel2]; [simpl in H2; lia|].
    simpl in H1, H2. rewrite !replaceAll_go_S.
    destruct (stripPrefix p (String c s)) as [rest|] eqn:Hrest.
    + apply stripPrefix_shorter in Hrest. f_equal. apply IH; lia.
    + f_equal. apply IH; lia.
Qed.

Lemma replaceAll_match c s rest :
  stripPrefix p (String c s) = Some rest →
  replaceAll p r (String c s) = r +:+ replaceAll p r rest.
Proof.
  intros Hrest. unfold replaceAll. simpl String.length.
  rewrite replaceAll_go_S, Hrest. f_equal.
  apply stripPrefix_shorter in Hrest.
  apply replaceAll_go_enough; lia.
Qed.

Lemma replaceAll_step c s :
  stripPrefix p (String c s) = None →
  replaceAll p r (String c s) = String c (replaceAll p r s).
Proof.
  intros Hrest. unfold replaceAll. simpl String.length.
  rewrite replaceAll_go_S, Hrest. reflexivity.
Qed.

(** A text whose characters differ from the first one of the replacement
    starts the result only if it starts the input, at a place where the
    pattern does not match. *)
Lemma startsWith_replaceAll r0 r' w s :
  r = String r0 r' → hasChar r0 w = false →
  startsWith w (replaceAll p r s) = true →
  startsWith w s = true ∧ (w ≠ "" → stripPrefix p s = None).
Proof.
  intros Hr. revert s; induction w as [|x w IH]; intros s Hw H; [split; [reflexivity|congruence]|].
  simpl in Hw. apply orb_false_elim in Hw as [Hx Hw].
  destruct s as [|c s]; [discriminate H|].
  destruct (stripPrefix p (String c s)) as [rest|] eqn:Hrest.
  - rewrite (replaceAll_match _ _ _ Hrest), Hr in H. simpl in H.
    rewrite Ascii.eqb_sym, Hx in H. discriminate H.
  - rewrite (replaceAll_step _ _ Hrest) in H.
    apply startsWith_cons in H as [-> H].
    destruct (IH s Hw H) as [Hs _]. split; [|auto].
    apply startsWith_cons. auto.
Qed.

(** No new occurrence of [w] appears when [w] and the replacement have
    no first character of the other. *)
Lemma includes_replaceAll r0 r' x w s :
  r = String r0 r' → hasChar r0 (String x w) = false → hasChar x r = false →
  includes (String x w) (replaceAll p r s) = true → includes (String x w) s = true.
Proof.
  intros Hr Hr0 Hx. induction s as [s IH] using string_length_ind.
  destruct s as [|c s]; [discriminate|].
  destruct (stripPrefix p (String c s)) as [rest|] eqn:Hrest.
  - rewrite (replaceAll_match _ _ _ Hrest), (includes_skip _ _ _ _ Hx).
    pose proof (stripPrefix_app _ _ _ Hrest) as Hs. rewrite Hs.
    intros H. apply includes_app_r. apply IH; [|assumption].
    apply (f_equal String.length) in Hs. rewrite length_app_string in Hs.
    simpl in Hs |- *. lia.
  - rewrite (replaceAll_step _ _ Hrest), includes_cons.
    intros [H|H]%orb_true_iff.
    + rewrite <- (replaceAll_step _ _ Hrest) in H.
      apply includes_here. eapply startsWith_replaceAll; eauto.
    + apply includes_later. apply IH; [simpl; lia|assumption].
Qed.

(** The pattern itself does not occur in the result. *)
Lemma replaceAll_removes r0 r' :
  r = String r0 r' → hasChar r0 p = false → hasChar p0 r = false →
  ∀ s, includes p (replaceAll p r s) = false.
Proof.
  intros Hr Hr0 Hp0 s. induction s as [s IH] using string_length_ind.
  destruct s as [|c s]; [reflexivity|].
  destruct (stripPrefix p (String c s)) as [rest|] eqn:Hrest.
  - rewrite (replaceAll_match _ _ _ Hrest). subst p. rewrite (includes_skip _ _ _ _ Hp0).
    apply IH. apply stripPrefix_app in Hrest. apply (f_equal String.length) in Hrest.
    rewrite length_app_string in Hrest. simpl in Hrest |- *. lia.
  - rewrite (replaceAll_step _ _ Hrest), includes_cons, (IH s) by (simpl; lia).
    rewrite orb_false_r, <- (replaceAll_step _ _ Hrest).
    destruct (startsWith p (replaceAll p r (String c s))) eqn:H; [|reflexivity].
    destruct (startsWith_replaceAll r0 r' p (String c s) Hr Hr0 H) as [Hs _].
    apply stripPrefix_startsWith in Hs as [? Hs]. congruence.
Qed.

(** Where the pattern occurs, the replacement occurs in the result. *)
Lemma replaceAll_inserts s : includes p s = true → includes r (replaceAll p r s) = true.
Proof.
  induction s as [s IH] using string_length_ind.
  destruct s as [|c s]; [discriminate|].
  destruct (stripPrefix p (String c s)) as [rest|] eqn:Hrest.
  - intros _. rewrite (replaceAll_match _ _ _ Hrest).
    apply includes_app_l. apply includes_here.
    clear. induction r; simpl; [reflexivity|]. rewrite Ascii.eqb_refl. assumption.
  - rewrite (replaceAll_step _ _ Hrest), includes_cons.
    intros [H|H]%orb_true_iff.
    + apply stripPrefix_startsWith in H as [? H]. congruence.
    + apply includes_later. apply IH; [simpl; lia|assumption].
Qed.

(** An occurrence of [w] survives when [w] and the pattern have no first
    character of the other. *)
Lemma startsWith_kept w s :
  hasChar p0 w = false → startsWith w s = true → startsWith w (replaceAll p r s) = true.
Proof.
  revert s; induction w as [|x w IH]; intros s Hw H; [reflexivity|].
  simpl in Hw. apply orb_false_elim in Hw as [Hx Hw].
  destruct s as [|c s]; [discriminate|].
  apply startsWith_cons in H as [-> H].
  rewrite replaceAll_step.
  - apply startsWith_cons. auto.
  - subst p. simpl. rewrite Hx. reflexivity.
Qed.

Lemma includes_kept x w s :
  hasChar p0 (String x w) = false → hasChar x p = false →
  includes (String x w) s = true → includes (String x w) (replaceAll p r s) = true.
Proof.
  intros Hp0 Hx. induction s as [s IH] using string_length_ind.
  destruct s as [|c s]; [discriminate|].
  rewrite includes_cons. intros [H|H]%orb_true_iff.
  { apply includes_here. now apply startsWith_kept. }
  destruct (stripPrefix p (String c s)) as [rest|] eqn:Hrest.
  - rewrite (replaceAll_match _ _ _ Hrest). apply includes_app_r.
    pose proof (stripPrefix_app _ _ _ Hrest) as Hs.
    apply IH.
    + apply (f_equal String.length) in Hs. rewrite length_app_string in Hs.
      simpl in Hs |- *. lia.
    + apply includes_later with (c := c) in H. rewrite Hs in H.
      now rewrite (includes_skip _ _ _ _ Hx) in H.
  - rewrite (replaceAll_step _ _ Hrest). apply includes_later.
    apply IH; [simpl; lia|assumption].
Qed.
End ReplaceAll.

(** *** Spaces around hyphens *)

Lemma append_cons c a b : String c a +:+ b = String c (a +:+ b).
Proof. reflexivity. Qed.

Lemma take_drop_string n s : s = take n s +:+ drop n s.
Proof.
  revert s; induction n as [|n IH]; intros [|c s]; try reflexivity.
  simpl. rewrite append_cons, <- IH. reflexivity.
Qed.

Lemma length_drop n s : String.length (drop n s) = (String.length s - n)%nat.
Proof. revert s; induction n as [|n IH]; intros [|c s]; simpl; auto. Qed.

Lemma spaceDashes_go_skip k s :
  spaceDashes_go k s = take k s +:+ spaceDashes (drop k s).
Proof.
  revert k; induction s as [|a s IH]; intros k; [destruct k; reflexivity|].
  destruct k as [|k]; [reflexivity|]. cbn [spaceDashes_go take drop].
  rewrite (IH k). reflexivity.
Qed.

Lemma spaceDashes_match s :
  dashed s = true →
  ∃ a b rest, s = String a (String "-" (String b rest))
              ∧ spaceDashes s
                = String a (" - " +:+ String b (take (tailBytes b) rest
                                                +:+ spaceDashes (drop (tailBytes b) rest))).
Proof.
  destruct s as [|a [|d [|b rest]]]; try discriminate. simpl dashed. intros H.
  exists a, b, rest. unfold spaceDashes at 1. cbn [spaceDashes_go]. rewrite H.
  rewrite spaceDashes_go_skip.
  apply andb_true_iff in H as [[_ ->%Ascii.eqb_eq]%andb_true_iff _]. auto.
Qed.

Lemma spaceDashes_step a s :
  dashed (String a s) = false → spaceDashes (String a s) = String a (spaceDashes s).
Proof.
  destruct s as [|d [|b rest]]; try reflexivity. simpl dashed. intros H.
  unfold spaceDashes. cbn [spaceDashes_go]. rewrite H. reflexivity.
Qed.

Lemma startsWith_spaceDashes w s :
  hasChar " " w = false → startsWith w (spaceDashes s) = true → startsWith w s = true.
Proof.
  revert s; induction w as [|x w IH]; intros s Hw H; [reflexivity|].
  simpl in Hw. apply orb_false_elim in Hw as [Hx Hw].
  destruct s as [|a s]; [discriminate H|].
  destruct (dashed (String a s)) eqn:Hd.
  - destruct (spaceDashes_match _ Hd) as (a' & b & rest & Hs & HT).
    rewrite HT in H. rewrite Hs. apply startsWith_cons in H as [-> H].
    apply startsWith_cons. split; [reflexivity|].
    destruct w as [|y w]; [reflexivity|]. simpl in H, Hw.
    apply orb_false_elim in Hw as [Hy _]. rewrite Ascii.eqb_sym, Hy in H. discriminate H.
  - rewrite (spaceDashes_step _ _ Hd) in H. apply startsWith_cons in H as [-> H].
    apply startsWith_cons. auto.
Qed.

(** The same after bytes that are copied. *)
Lemma startsWith_spaceDashes_app w u v :
  hasChar " " w = false →
  startsWith w (u +:+ spaceDashes v) = true → startsWith w (u +:+ v) = true.
Proof.
  revert w; induction u as [|c u IH]; intros w Hw; [now apply startsWith_spaceDashes|].
  destruct w as [|x w]; [reflexivity|]. rewrite !append_cons, !startsWith_cons.
  intros [-> H]. split; [reflexivity|]. apply IH; [|assumption].
  simpl in Hw. now apply orb_false_elim in Hw as [_ Hw].
Qed.

Lemma includes_spaceDashes_app x w u v :
  hasChar " " (String x w) = false →
  (includes (String x w) (spaceDashes v) = true → includes (String x w) v = true) →
  includes (String x w) (u +:+ spaceDashes v) = true →
  includes (String x w) (u +:+ v) = true.
Proof.
  intros Hw Hv. induction u as [|c u IH]; [exact Hv|].
  rewrite !append_cons, !includes_cons. intros [H|H]%orb_true_iff; apply orb_true_iff.
  - left. rewrite <- append_cons in *. now apply startsWith_spaceDashes_app.
  - right. auto.
Qed.

Lemma includes_spaceDashes x w s :
  hasChar " " (String x w) = false → Ascii.eqb x "-" = false →
  includes (String x w) (spaceDashes s) = true → includes (String x w) s = true.
Proof.
  intros Hw Hx. induction s as [s IH] using string_length_ind.
  destruct s as [|a s]; [discriminate|].
  destruct (dashed (String a s)) eqn:Hd.
  - destruct (spaceDashes_match _ Hd) as (a' & b & rest & Hs & HT).
    injection Hs as <- ->. rewrite HT.
    assert (Hsp : Ascii.eqb x " " = false).
    { simpl in Hw. apply orb_false_elim in Hw as [Hsp _]. now rewrite Ascii.eqb_sym. }
    rewrite includes_cons. intros [H|H]%orb_true_iff.
    { apply includes_here. apply startsWith_spaceDashes; [assumption|]. now rewrite HT. }
    set (k := tailBytes b) in *.
    change (" - " +:+ String b (take k rest +:+ spaceDashes (drop k rest)))
      with (String " " (String "-" (String " "
              (String b (take k rest) +:+ spaceDashes (drop k rest))))) in H.
    rewrite 3!includes_cons in H. simpl startsWith in H. rewrite Hsp, Hx in H. simpl in H.
    apply includes_later, includes_later.
    rewrite (take_drop_string k rest), <- append_cons.
    apply includes_spaceDashes_app; [assumption| |exact H].
    apply IH. simpl. rewrite length_drop. lia.
  - rewrite (spaceDashes_step _ _ Hd), includes_cons. intros [H|H]%orb_true_iff.
    + apply includes_here. apply startsWith_spaceDashes; [assumption|].
      now rewrite (spaceDashes_step _ _ Hd).
    + apply includes_later. apply IH; [simpl; lia|assumption].
Qed.

Lemma startsWith_spaced w s :
  hasChar "-" w = false → startsWith w s = true → startsWith w (spaceDashes s) = true.
Proof.
  revert s; induction w as [|x w IH]; intros s Hw H; [reflexivity|].
  simpl in Hw. apply orb_false_elim in Hw as [Hx Hw].
  destruct s as [|a s]; [discriminate H|].
  apply startsWith_cons in H as [-> H].
  destruct (dashed (String a s)) eqn:Hd.
  - destruct (spaceDashes_match _ Hd) as (a' & b & rest & Hs & HT).
    injection Hs as <- ->. rewrite HT. apply startsWith_cons. split; [reflexivity|].
    destruct w as [|y w]; [reflexivity|]. simpl in H, Hw.
    apply orb_false_elim in Hw as [Hy _]. rewrite Ascii.eqb_sym, Hy in H. discriminate H.
  - rewrite (spaceDashes_step _ _ Hd). apply startsWith_cons. auto.
Qed.

Lemma startsWith_spaced_app w u v :
  hasChar "-" w = false →
  startsWith w (u +:+ v) = true → startsWith w (u +:+ spaceDashes v) = true.
Proof.
  revert w; induction u as [|c u IH]; intros w Hw; [now apply startsWith_spaced|].
  destruct w as [|x w]; [reflexivity|]. rewrite !append_cons, !startsWith_cons.
  intros [-> H]. split; [reflexivity|]. apply IH; [|assumption].
  simpl in Hw. now apply orb_false_elim in Hw as [_ Hw].
Qed.

Lemma includes_spaced_app x w u v :
  hasChar "-" (String x w) = false →
  (includes (String x w) v = true → includes (String x w) (spaceDashes v) = true) →
  includes (String x w) (u +:+ v) = true →
  includes (String x w) (u +:+ spaceDashes v) = true.
Proof.
  intros Hw Hv. induction u as [|c u IH]; [exact Hv|].
  rewrite !append_cons, !includes_cons. intros [H|H]%orb_true_iff; apply orb_true_iff.
  - left. rewrite <- append_cons in *. now apply startsWith_spaced_app.
  - right. auto.
Qed.

Lemma includes_spaced x w s :
  hasChar "-" (String x w) = false →
  includes (String x w) s = true → includes (String x w) (spaceDashes s) = true.
Proof.
  intros Hw. induction s as [s IH] using string_length_ind.
  destruct s as [|a s]; [discriminate|].
  rewrite includes_cons. intros [H|H]%orb_true_iff.
  { apply includes_here. now apply startsWith_spaced. }
  destruct (dashed (String a s)) eqn:Hd.
  - destruct (spaceDashes_match _ Hd) as (a' & b & rest & Hs & HT).
    injection Hs as <- ->. rewrite HT.
    assert (Hx : Ascii.eqb x "-" = false).
    { simpl in Hw. apply orb_false_elim in Hw as [Hx _]. now rewrite Ascii.eqb_sym. }
    rewrite includes_cons in H. simpl startsWith in H. rewrite Hx in H. simpl in H.
    apply includes_later.
    set (k := tailBytes b) in *.
    change (" - " +:+ String b (take k rest +:+ spaceDashes (drop k rest)))
      with (String " " (String "-" (String " "
              (String b (take k rest) +:+ spaceDashes (drop k rest))))).
    do 3 apply includes_later.
    apply includes_spaced_app; [assumption| |].
    + apply IH. simpl. rewrite length_drop. lia.
    + rewrite append_cons, <- take_drop_string. exact H.
  - rewrite (spaceDashes_step _ _ Hd). apply includes_later.
    apply IH; [simpl; lia|assumption].
Qed.

(** *** Splitting into candidates and trimming *)

Lemma includes_text w piece pieces :
  piece ∈ pieces → includes w piece = true → includes w (text pieces) = true.
Proof.
  induction 1 as [piece pieces|piece q pieces _ IH]; intros H; simpl.
  - now apply includes_app_l.
  - apply includes_app_r. auto.
Qed.

Lemma splitCells_cons c s :
  splitCells (String c s)
  = if Ascii.eqb c "," then "" :: "," :: splitCells s
    else if Ascii.eqb c "010" then
      match s, splitCells s with
      | String c' _, _ :: run :: pieces =>
          if Ascii.eqb c' "010" then "" :: String c run :: pieces
          else "" :: String c "" :: splitCells s
      | _, _ => "" :: String c "" :: splitCells s
      end
    else match splitCells s with
         | piece :: pieces => String c piece :: pieces
         | [] => [String c ""]
         end.
Proof. destruct s; reflexivity. Qed.

Lemma splitCells_head c s :
  Ascii.eqb c "," || Ascii.eqb c "010" = true →
  ∃ pieces, splitCells (String c s) = "" :: pieces.
Proof.
  intros H. rewrite splitCells_cons.
  destruct (Ascii.eqb c ","); [eauto|]. simpl in H. rewrite H.
  destruct s as [|c' s]; [eauto|].
  destruct (splitCells (String c' s)) as [|? [|? ?]]; eauto.
  destruct (Ascii.eqb c' "010"); eauto.
Qed.

Lemma text_cons piece pieces : text (piece :: pieces) = piece +:+ text pieces.
Proof. reflexivity. Qed.

Lemma append_empty s : "" +:+ s = s.
Proof. reflexivity. Qed.

Lemma text_splitCells s : text (splitCells s) = s.
Proof.
  induction s as [|c s IH]; [reflexivity|].
  rewrite splitCells_cons.
  destruct (Ascii.eqb_spec c ",") as [->|_].
  { rewrite !text_cons, IH. reflexivity. }
  destruct (Ascii.eqb_spec c "010") as [->|_].
  - destruct s as [|c' s]; [reflexivity|].
    destruct (Ascii.eqb_spec c' "010") as [->|Hc'].
    + destruct (splitCells_head "010" s eq_refl) as [pieces Hp].
      rewrite Hp in IH |- *. destruct pieces as [|run pieces]; [discriminate IH|].
      rewrite !text_cons, append_empty in IH.
      rewrite !text_cons, append_empty, append_cons, IH. reflexivity.
    + destruct (splitCells (String c' s)) as [|? [|? ?]];
        rewrite 2!text_cons, IH; reflexivity.
  - destruct (splitCells s) as [|piece pieces].
    + rewrite <- IH. reflexivity.
    + rewrite text_cons in IH. rewrite text_cons, append_cons, IH. reflexivity.
Qed.

Lemma startsWith_splitCells w s :
  hasChar "," w = false → hasChar "010" w = false → startsWith w s = true →
  ∃ piece pieces, splitCells s = piece :: pieces ∧ startsWith w piece = true.
Proof.
  revert s; induction w as [|x w IH]; intros s Hc Hn H.
  - destruct s as [|c s]; [simpl; eauto|].
    pose proof (text_splitCells (String c s)) as Ht.
    destruct (splitCells (String c s)); [discriminate Ht|eauto].
  - simpl in Hc, Hn.
    apply orb_false_elim in Hc as [Hxc Hc]. apply orb_false_elim in Hn as [Hxn Hn].
    destruct s as [|c s]; [discriminate H|].
    apply startsWith_cons in H as [-> H].
    destruct (IH s Hc Hn H) as (piece & pieces & Hs & Hp).
    rewrite splitCells_cons, Ascii.eqb_sym, Hxc, Ascii.eqb_sym, Hxn, Hs.
    eexists _, _. split; [reflexivity|]. apply startsWith_cons. auto.
Qed.

Lemma includes_splitCells x w s :
  hasChar "," (String x w) = false → hasChar "010" (String x w) = false →
  includes (String x w) s = true →
  ∃ piece, piece ∈ splitCells s ∧ includes (String x w) piece = true.
Proof.
  intros Hc Hn. induction s as [|c s IH]; [discriminate|].
  rewrite includes_cons. intros [H|H]%orb_true_iff.
  { destruct (startsWith_splitCells _ _ Hc Hn H) as (piece & pieces & -> & Hp).
    exists piece. split; [now left|now apply includes_here]. }
  destruct (IH H) as (piece & Hin & Hp). clear IH.
  rewrite splitCells_cons.
  destruct (Ascii.eqb_spec c ",") as [->|_]; [exists piece; split; [now do 2 right|assumption]|].
  destruct (Ascii.eqb_spec c "010") as [->|_].
  - destruct s as [|c' s]; [inversion Hin; subst; [discriminate Hp|inversion H2]|].
    destruct (Ascii.eqb_spec c' "010") as [->|Hc'].
    + destruct (splitCells_head "010" s eq_refl) as [pieces Hs].
      rewrite Hs in Hin |- *. apply elem_of_cons in Hin as [->|Hin]; [discriminate Hp|].
      destruct pieces as [|run pieces]; [inversion Hin|].
      apply elem_of_cons in Hin as [->|Hin].
      * eexists. split; [right; now left|]. now apply includes_later.
      * exists piece. split; [now do 2 right|assumption].
    + exists piece. split; [|assumption].
      destruct (splitCells (String c' s)) as [|? [|? ?]]; now do 2 right.
  - destruct (splitCells s) as [|piece0 pieces]; [inversion Hin|].
    apply elem_of_cons in Hin as [->|Hin].
    + eexists. split; [now left|]. now apply includes_later.
    + exists piece. split; [now right|assumption].
Qed.

(** *** White space *)

Lemma drop_app n a b :
  (n ≤ String.length a)%nat → drop n (a +:+ b) = drop n a +:+ b.
Proof.
  revert a; induction n as [|n IH]; intros a Hn; [destruct a; destruct b; reflexivity|].
  destruct a as [|c a]; [simpl in Hn; lia|]. rewrite append_cons. simpl in *.
  apply IH. lia.
Qed.

Lemma append_nil_r s : s +:+ "" = s.
Proof. induction s as [|c s IH]; [reflexivity|]. now rewrite append_cons, IH. Qed.

Lemma append_assoc a b c : (a +:+ b) +:+ c = a +:+ b +:+ c.
Proof. induction a as [|x a IH]; [reflexivity|]. now rewrite !append_cons, IH. Qed.

Lemma allOf_app P a b : allOf P (a +:+ b) = allOf P a && allOf P b.
Proof.
  induction a as [|c a IH]; [reflexivity|].
  rewrite append_cons. cbn [allOf]. rewrite IH. apply andb_assoc.
Qed.

Lemma plain_low c :
  plain c = true → Ascii.is_space c = false ∧ (nat_of_ascii c < 128)%nat.
Proof.
  unfold plain. intros [H1 H2]%andb_true_iff.
  split; [now apply negb_true_iff|now apply Nat.ltb_lt].
Qed.

Lemma high_not_plain c : (128 ≤ nat_of_ascii c)%nat → plain c = false.
Proof.
  intros H. unfold plain. rewrite (proj2 (Nat.ltb_ge _ _) H). apply andb_false_r.
Qed.

Lemma wideSpace_high a b c :
  wideSpace a b c = true →
  (128 ≤ nat_of_ascii a)%nat ∧ (128 ≤ nat_of_ascii b)%nat ∧ (128 ≤ nat_of_ascii c)%nat.
Proof.
  unfold wideSpace, byteIn. intros H.
  repeat match goal with
         | H : _ || _ = true |- _ => apply orb_true_iff in H as [H|H]
         | H : _ && _ = true |- _ => apply andb_true_iff in H as [? ?]
         | H : Ascii.eqb _ _ = true |- _ => apply Ascii.eqb_eq in H; subst
         | H : (_ <=? _)%nat = true |- _ => apply Nat.leb_le in H
         end;
    repeat split; try assumption; apply Nat.leb_le; vm_compute; reflexivity.
Qed.

(** A white space character at the head of [s]: its bytes, none of them
    plain, and the rest of [s]. *)
Lemma spaceWidth_split s k :
  spaceWidth s = S k →
  ∃ u, s = u +:+ drop (S k) s ∧ String.length u = S k
       ∧ allOf (fun c => negb (plain c)) u = true.
Proof.
  intros H. destruct s as [|a s1]; [discriminate|]. cbn [spaceWidth] in H.
  destruct (Ascii.is_space a) eqn:Ha.
  { injection H as <-. exists (String a ""). split; [reflexivity|]. split; [reflexivity|].
    cbn [allOf]. unfold plain. rewrite Ha. reflexivity. }
  destruct s1 as [|b s2]; [discriminate|].
  destruct (Ascii.eqb a "194" && Ascii.eqb b "160") eqn:Hn.
  { injection H as <-. apply andb_true_iff in Hn as [Ha' Hb'].
    apply Ascii.eqb_eq in Ha', Hb'. subst a b.
    exists (String "194" (String "160" "")). repeat split. }
  destruct s2 as [|c s3]; [discriminate|].
  destruct (wideSpace a b c) eqn:Hw; [|discriminate].
  injection H as <-. apply wideSpace_high in Hw as (Ha' & Hb' & Hc').
  exists (String a (String b (String c ""))). split; [reflexivity|]. split; [reflexivity|].
  cbn [allOf]. rewrite !high_not_plain by assumption. reflexivity.
Qed.

Lemma spaceWidth_le s : (spaceWidth s ≤ String.length s)%nat.
Proof.
  destruct (spaceWidth s) as [|k] eqn:H; [lia|].
  destruct (spaceWidth_split s k H) as (u & Hs & Hu & _).
  apply (f_equal String.length) in Hs. rewrite length_app_string in Hs. lia.
Qed.

Lemma spaceWidth_plain c s : plain c = true → spaceWidth (String c s) = 0%nat.
Proof.
  intros H. destruct (spaceWidth (String c s)) as [|k] eqn:Hk; [reflexivity|].
  destruct (spaceWidth_split _ k Hk) as (u & Hs & Hu & Hall).
  destruct u as [|x u]; [discriminate Hu|]. rewrite append_cons in Hs.
  injection Hs as <- _. cbn [allOf] in Hall. rewrite H in Hall. discriminate Hall.
Qed.


(** The white space character at the head of [a] is the one at the head
    of any text that begins with [a]. *)
Lemma spaceWidth_app a b k : spaceWidth a = S k → spaceWidth (a +:+ b) = S k.
Proof.
  destruct a as [|x a]; [discriminate|]. rewrite append_cons. cbn [spaceWidth].
  destruct (Ascii.is_space x); [auto|].
  destruct a as [|y a]; [discriminate|]. rewrite append_cons.
  destruct (Ascii.eqb x "194" && Ascii.eqb y "160"); [auto|].
  destruct a as [|z a]; [discriminate|]. rewrite append_cons. auto.
Qed.

(** An ASCII character is no later byte of a white space character. *)
Lemma spaceWidth_app_ascii a c b :
  a ≠ "" → (nat_of_ascii c < 128)%nat →
  spaceWidth (a +:+ String c b) = spaceWidth a.
Proof.
  intros Ha Hc. destruct a as [|x a]; [congruence|]. rewrite append_cons. cbn [spaceWidth].
  destruct (Ascii.is_space x); [reflexivity|].
  assert (Hlow : ∀ h, (128 ≤ nat_of_ascii h)%nat → Ascii.eqb c h = false).
  { intros h Hh. destruct (Ascii.eqb_spec c h) as [->|]; [lia|reflexivity]. }
  assert (Hwide : ∀ p q, wideSpace p q c = false).
  { intros p q. destruct (wideSpace p q c) eqn:H; [|reflexivity].
    apply wideSpace_high in H. lia. }
  assert (Hwide' : ∀ p r, wideSpace p c r = false).
  { intros p r. destruct (wideSpace p c r) eqn:H; [|reflexivity].
    apply wideSpace_high in H. lia. }
  destruct a as [|y a].
  - rewrite append_empty.
    rewrite Hlow by (apply Nat.leb_le; vm_compute; reflexivity).
    rewrite andb_false_r. destruct b; [reflexivity|]. now rewrite Hwide'.
  - rewrite append_cons. destruct (Ascii.eqb x "194" && Ascii.eqb y "160"); [reflexivity|].
    destruct a as [|z a]; [|rewrite append_cons; reflexivity].
    rewrite append_empty, Hwide. reflexivity.
Qed.

Lemma trimStart_go_drop k s : trimStart_go k s = trimStart (drop k s).
Proof.
  revert k; induction s as [|c s IH]; intros k; [destruct k; reflexivity|].
  destruct k as [|k]; [reflexivity|]. cbn [trimStart_go drop]. apply IH.
Qed.

Lemma trimStart_unfold s :
  trimStart s = match spaceWidth s with
                | O => s
                | S k => trimStart (drop (S k) s)
                end.
Proof.
  destruct s as [|c s]; [reflexivity|]. unfold trimStart at 1. cbn [trimStart_go].
  destruct (spaceWidth (String c s)) as [|k]; [reflexivity|]. exact (trimStart_go_drop k s).
Qed.

(** Induction along the white space at the head of a text. *)
Lemma leading_space_ind (P : string → Prop) :
  (∀ s, spaceWidth s = 0%nat → P s) →
  (∀ s k, spaceWidth s = S k → P (drop (S k) s) → P s) →
  ∀ s, P s.
Proof.
  intros H0 HS. induction s as [s IH] using string_length_ind.
  destruct (spaceWidth s) as [|k] eqn:Hk; [auto|].
  apply (HS s k Hk), IH. rewrite length_drop.
  pose proof (spaceWidth_le s). lia.
Qed.

Lemma trimStart_fixed s : spaceWidth s = 0%nat → trimStart s = s.
Proof. intros H. rewrite trimStart_unfold, H. reflexivity. Qed.

Lemma trimStart_plain c s : plain c = true → trimStart (String c s) = String c s.
Proof. intros H. apply trimStart_fixed. now apply spaceWidth_plain. Qed.


Lemma spaceWidth_trimStart s : spaceWidth (trimStart s) = 0%nat.
Proof.
  induction s as [s H|s k H IH] using leading_space_ind.
  - now rewrite trimStart_fixed.
  - rewrite trimStart_unfold, H. exact IH.
Qed.

Lemma trimStart_suffix s : ∃ a, s = a +:+ trimStart s.
Proof.
  induction s as [s H|s k H [a IH]] using leading_space_ind.
  - exists "". now rewrite trimStart_fixed.
  - exists (take (S k) s +:+ a).
    rewrite (trimStart_unfold s), H, append_assoc, <- IH. apply take_drop_string.
Qed.

(** A text that [trimStart] empties is made of white space. *)
Lemma trimStart_empty s :
  trimStart s = "" → allOf (fun c => negb (plain c)) s = true.
Proof.
  induction s as [s H|s k H IH] using leading_space_ind.
  - rewrite trimStart_fixed by assumption. intros ->. reflexivity.
  - rewrite trimStart_unfold, H. intros Hrest.
    destruct (spaceWidth_split s k H) as (u & Hs & _ & Hu).
    rewrite Hs, allOf_app, Hu, (IH Hrest). reflexivity.
Qed.

Lemma trimStart_app u v : trimStart u = "" → trimStart (u +:+ v) = trimStart v.
Proof.
  induction u as [u H|u k H IH] using leading_space_ind.
  - rewrite trimStart_fixed by assumption. intros ->. reflexivity.
  - rewrite (trimStart_unfold u), H. intros Hrest.
    rewrite (trimStart_unfold (u +:+ v)), (spaceWidth_app u v k H).
    rewrite drop_app by (pose proof (spaceWidth_le u); lia). auto.
Qed.

Lemma trimEnd_cons c s :
  trimEnd (String c s)
  = match trimStart (String c s) with
    | "" => ""
    | _ => String c (trimEnd s)
    end.
Proof. reflexivity. Qed.

(** What [trimEnd] removes is white space. *)
Lemma trimEnd_rest s : ∃ b, s = trimEnd s +:+ b ∧ trimStart b = "".
Proof.
  induction s as [|c s (b & IH & Hb)]; [now exists ""|]. rewrite trimEnd_cons.
  destruct (trimStart (String c s)) as [|t0 t] eqn:Ht.
  - exists (String c s). split; [reflexivity|exact Ht].
  - exists b. split; [|exact Hb]. rewrite append_cons, <- IH. reflexivity.
Qed.

Lemma trimEnd_prefix s : ∃ b, s = trimEnd s +:+ b.
Proof. destruct (trimEnd_rest s) as (b & H & _). eauto. Qed.

Lemma includes_trim w s : includes w (trim s) = true → includes w s = true.
Proof.
  unfold trim. intros H.
  destruct (trimStart_suffix s) as [a Ha]. rewrite Ha. apply includes_app_r.
  destruct (trimEnd_prefix (trimStart s)) as [b Hb]. rewrite Hb. now apply includes_app_l.
Qed.

Lemma hasChar_plain x u :
  plain x = true → allOf (fun c => negb (plain c)) u = true → hasChar x u = false.
Proof.
  intros Hx. induction u as [|c u IH]; [reflexivity|]. cbn [allOf hasChar].
  intros [Hc Hu]%andb_true_iff. rewrite (IH Hu), orb_false_r.
  destruct (Ascii.eqb_spec x c) as [->|]; [|reflexivity].
  rewrite Hx in Hc. discriminate Hc.
Qed.

Lemma includes_trimStart x w s :
  plain x = true →
  includes (String x w) s = true → includes (String x w) (trimStart s) = true.
Proof.
  intros Hx. induction s as [s H|s k H IH] using leading_space_ind.
  - now rewrite trimStart_fixed.
  - rewrite trimStart_unfold, H. intros Hs. apply IH.
    destruct (spaceWidth_split s k H) as (u & Hu & _ & Hall).
    rewrite Hu, includes_skip in Hs by now apply hasChar_plain. exact Hs.
Qed.

(** A text with a plain byte is not made of white space. *)
Lemma plainEnd_allOf w :
  plainEnd w = true → allOf (fun c => negb (plain c)) w = false.
Proof.
  induction w as [|c w IH]; [discriminate|]. cbn [plainEnd allOf].
  destruct w as [|d w]; [intros ->; reflexivity|].
  intros H. rewrite (IH H). apply andb_false_r.
Qed.

Lemma allOf_startsWith P w s :
  startsWith w s = true → allOf P s = true → allOf P w = true.
Proof.
  revert s; induction w as [|x w IH]; intros s; [reflexivity|].
  destruct s as [|c s]; [discriminate|]. rewrite startsWith_cons. intros [-> H].
  cbn [allOf]. intros [Hc Hs]%andb_true_iff. rewrite Hc. eauto.
Qed.

Lemma startsWith_trimEnd w s :
  plainEnd w = true →
  startsWith w s = true → startsWith w (trimEnd s) = true.
Proof.
  revert s; induction w as [|x w IH]; intros s Hw H; [reflexivity|].
  destruct s as [|c s]; [discriminate|]. pose proof H as H'.
  apply startsWith_cons in H as [-> H]. rewrite trimEnd_cons.
  destruct (trimStart (String c s)) as [|t0 t] eqn:Ht.
  - apply trimStart_empty in Ht. apply (allOf_startsWith _ _ _ H') in Ht.
    rewrite (plainEnd_allOf _ Hw) in Ht. discriminate Ht.
  - apply startsWith_cons. split; [reflexivity|].
    destruct w as [|y w]; [reflexivity|]. apply IH; assumption.
Qed.

Lemma allOf_includes P x w s :
  includes (String x w) s = true → allOf P s = true → allOf P (String x w) = true.
Proof.
  induction s as [|c s IH]; [discriminate|].
  rewrite includes_cons. intros [H|H]%orb_true_iff Hall.
  - exact (allOf_startsWith _ _ _ H Hall).
  - cbn [allOf] in Hall. apply andb_true_iff in Hall as [_ Hall]. auto.
Qed.

Lemma includes_trimEnd x w s :
  plainEnd (String x w) = true →
  includes (String x w) s = true → includes (String x w) (trimEnd s) = true.
Proof.
  intros Hw. induction s as [|c s IH]; [discriminate|]. intros Hs.
  rewrite trimEnd_cons.
  destruct (trimStart (String c s)) as [|t0 t] eqn:Ht.
  - apply trimStart_empty in Ht. apply (allOf_includes _ _ _ _ Hs) in Ht.
    rewrite (plainEnd_allOf _ Hw) in Ht. discriminate Ht.
  - rewrite includes_cons in Hs. apply orb_true_iff in Hs as [H|H].
    + apply includes_here.
      pose proof (startsWith_trimEnd _ _ Hw H) as H'.
      rewrite trimEnd_cons, Ht in H'. exact H'.
    + apply includes_later. auto.
Qed.

(** ** "noon" in a cell *)

Lemma normalizeCell_no_noon text : includes "noon" (normalizeCell text) = false.
Proof.
  unfold normalizeCell.
  destruct (includes "noon" (spaceDashes _)) eqn:H; [|reflexivity].
  apply includes_spaceDashes in H; [|reflexivity..].
  apply (includes_replaceAll _ _ _ "-" "") in H; [|reflexivity..].
  rewrite (replaceAll_removes _ _ _ "1" "2 pm") in H by reflexivity.
  discriminate H.
Qed.

Lemma normalizeCell_12pm text :
  includes "noon" (toLowerCase text) = true → includes "12 pm" (normalizeCell text) = true.
Proof.
  intros H. unfold normalizeCell.
  apply includes_spaced; [reflexivity|].
  apply includes_kept; [reflexivity..|].
  now apply replaceAll_inserts.
Qed.

(** C8, as stated, fails: a cell that mentions noon after words gives a
    candidate with "12 pm" that does not begin with a number, and no token. *)
Lemma closed_at_noon_gives_no_token :
  includes "noon" (toLowerCase "Closed at noon") = true
  ∧ candidates "Closed at noon" = ["closed at 12 pm"]
  ∧ cellSchedule false (Some "Monday") "Closed at noon" = [].
Proof. repeat split; reflexivity. Qed.

(** C8, amended: no token of a cell contains "noon"; when the text
    contains "noon" in any letter case, one of the candidates the text is
    split into contains "12 pm", and it is a token of the cell exactly when
    it begins with an integer (and passes the evenings-and-weekends filter
    when that is on). *)
Theorem noon_is_spelt_12_pm (e : bool) (day : option string) (text : string) :
  (∀ token, token ∈ cellSchedule e day text → includes "noon" token = false)
  ∧ (includes "noon" (toLowerCase text) = true →
     ∃ candidate, candidate ∈ candidates text
       ∧ includes "12 pm" candidate = true
       ∧ (candidate ∈ cellSchedule e day text
          ↔ startsWithInt candidate = true
            ∧ (if e then eveningsAndWeekends day candidate else true) = true)).
Proof.
  split.
  - intros token Htoken. unfold cellSchedule in Htoken.
    apply list_elem_of_In, filter_In in Htoken as [Htoken _].
    apply filter_In in Htoken as [Htoken _].
    apply list_elem_of_In, list_elem_of_fmap in Htoken as (piece & -> & Hpiece).
    destruct (includes "noon" (trim piece)) eqn:H; [|reflexivity].
    apply includes_trim in H. apply (includes_text _ _ _ Hpiece) in H.
    rewrite text_splitCells, normalizeCell_no_noon in H. discriminate H.
  - intros Hnoon. apply normalizeCell_12pm in Hnoon.
    apply includes_splitCells in Hnoon as (piece & Hpiece & Hp); [|reflexivity..].
    assert (Hcandidate : trim piece ∈ candidates text).
    { unfold candidates. apply list_elem_of_fmap. eauto. }
    exists (trim piece). split; [exact Hcandidate|]. split.
    + unfold trim. apply includes_trimEnd; [reflexivity|].
      apply includes_trimStart; [reflexivity|assumption].
    + unfold cellSchedule. rewrite list_elem_of_In, !filter_In, <- list_elem_of_In.
      destruct e; tauto.
Qed.

(** ** Column alignment in the row extractor *)

(** C5, as stated, fails: in a row with a header cell the data cell 1 is
    given the day label 1 (offset 0, not -1), and in a row without one the
    data cell 1 is given the day label 0 (offset -1, not 0). *)
Lemma alignment_offsets_swapped :
  day <$> cellEntries false ["Monday"; "Tuesday"] headedRow !! 1%nat
    = Some (Some "Tuesday")
  ∧ at_index ["Monday"; "Tuesday"] (1 - 1) = Some "Monday"
  ∧ day <$> cellEntries false ["Monday"; "Tuesday"] plainRow !! 1%nat
    = Some (Some "Monday")
  ∧ at_index ["Monday"; "Tuesday"] (1 + 0) = Some "Tuesday".
Proof. repeat split; reflexivity. Qed.

(** C5, amended: the data cell at index i of a row with a header cell is
    given the day label at index i; in a row without a header cell it is
    given the day label at index i - 1, so that the first cell, which
    holds the activity name, is given no day. *)
Theorem alignment_by_header (e : bool) (days : list string) (row : Row) :
  day <$> cellEntries e days row
  = imap (fun i _ =>
            at_index days (if activityIsHead row then Z.of_nat i else Z.of_nat i - 1))
      (rowTd row).
Proof.
  unfold cellEntries.
  rewrite fmap_imap.
  apply imap_ext; intros i cell _; simpl.
  unfold actualIndex.
  destruct (activityIsHead row); f_equal; lia.
Qed.

(** ** The scenario of the specification *)

(** C6: in a table whose day labels are Monday and Tuesday, the row with
    the header cell Pickleball and the data cells 1-2pm and 3-4:30pm gives
    the activity name Pickleball and the ranges Monday: 1 - 2pm,
    Tuesday: 3 - 4:30pm (the evenings-and-weekends filter being off, as it
    is by default), and the row is kept. *)
Theorem scenario_headed_row (page : Page) (table : Table)
    (Hdays : getDays table = ["Monday"; "Tuesday"]) :
  schedules (extractRow false page table headedRow)
    = <["Monday" := ["1 - 2pm"]]> (<["Tuesday" := ["3 - 4:30pm"]]> ∅)
  ∧ activity (extractRow false page table headedRow) = "Pickleball"
  ∧ pageActivities false page [(table, headedRow)] = [extractRow false page table headedRow].
Proof.
  assert (Hs : schedules (extractRow false page table headedRow)
               = <["Monday" := ["1 - 2pm"]]> (<["Tuesday" := ["3 - 4:30pm"]]> ∅)).
  { unfold extractRow; simpl. rewrite Hdays. vm_compute. reflexivity. }
  split; [exact Hs|]. split; [reflexivity|].
  unfold pageActivities.
  change (List.filter _ [(table, headedRow)]) with [(table, headedRow)].
  cbn [fmap list_fmap fst snd List.filter].
  rewrite Hs. reflexivity.
Qed.

Lemma scenario_headed_row_witness :
  schedules (extractRow false nepean mondayTuesdayTable headedRow)
    = <["Monday" := ["1 - 2pm"]]> (<["Tuesday" := ["3 - 4:30pm"]]> ∅)
  ∧ activity (extractRow false nepean mondayTuesdayTable headedRow) = "Pickleball"
  ∧ pageActivities false nepean [(mondayTuesdayTable, headedRow)]
    = [extractRow false nepean mondayTuesdayTable headedRow].
Proof.
  apply (scenario_headed_row nepean mondayTuesdayTable).
  reflexivity.
Defined.

(** ** Keys of the extracted schedules *)

(** C9 fails on the code: in a row without a header cell the first data
    cell holds the activity name and is given the day [undefined]; when its
    text begins with a number it passes for a time and is stored under the
    key "undefined", which is no day of the table. *)
Theorem activity_cell_leaks_undefined_key (page : Page) :
  getDays unlabelledTable = defaultDays
  ∧ schedules (extractRow false page unlabelledTable seniorsRow)
    = <["undefined" := ["55+ pickleball"]]> (<["Monday" := ["6 - 8pm"]]> ∅)
  ∧ "undefined" ∉ getDays unlabelledTable.
Proof.
  split; [reflexivity|]. split; [vm_compute; reflexivity|].
  intros H. apply list_elem_of_In in H. simpl in H.
  repeat destruct H as [H|H]; try discriminate H; exact H.
Qed.

(** ** The aggregation by location *)

Section AggregatorFacts.

Variable moment : string → option Z.

Lemma property_assign {A} key (value : A) object name :
  property name (assign key value object)
  = if decide (key = name) then Some value else property name object.
Proof.
  induction object as [|[k v] object IH]; simpl.
  - destruct (String.eqb_spec key name); case_decide; congruence.
  - destruct (String.eqb_spec k key) as [->|Hk]; simpl.
    + destruct (String.eqb_spec key name); case_decide; congruence.
    + rewrite IH. destruct (String.eqb_spec k name) as [->|]; case_decide; congruence.
Qed.

Lemma addDay_failed acc a ds : foldl (addDay moment acc a) None ds = None.
Proof. induction ds; simpl; auto. Qed.

Lemma addDay_fold acc a ds d0 :
  NoDup ds →
  (∀ day, day ∈ ds → is_Some (daySchedule moment acc a day)) →
  ∃ d, foldl (addDay moment acc a) (Some d0) ds = Some d
       ∧ (∀ day, day ∉ ds → d !! day = d0 !! day)
       ∧ (∀ day, day ∈ ds → d0 !! day = None →
            daySchedule moment acc a day = Some (from_option id [] (d !! day))).
Proof.
  intros Hnodup. revert d0. induction Hnodup as [|day0 ds Hnotin Hnodup IH]; intros d0 Hsome.
  - exists d0. repeat split; auto. intros day H. inversion H.
  - destruct (Hsome day0) as [times0 Htimes0]; [now left|].
    cbn [foldl]. unfold addDay at 2. rewrite Htimes0. cbn [mbind option_bind].
    set (d1 := match times0 with [] => d0 | _ :: _ => <[day0 := times0]> d0 end).
    destruct (IH d1) as (d & Hd & Hout & Hin).
    { intros day H. apply Hsome. now right. }
    exists d. split; [exact Hd|]. split.
    + intros day Hday. rewrite Hout by (intros H; apply Hday; now right).
      subst d1. destruct times0; [reflexivity|].
      apply lookup_insert_ne. intros ->. apply Hday. now left.
    + intros day Hday Hnone.
      destruct (decide (day = day0)) as [->|Hne].
      * rewrite (Hout day0 Hnotin), Htimes0. subst d1.
        destruct times0; [rewrite Hnone; reflexivity|].
        rewrite lookup_insert_eq. reflexivity.
      * apply Hin.
        -- apply elem_of_cons in Hday as [|]; [contradiction|assumption].
        -- subst d1. destruct times0; [assumption|].
           rewrite lookup_insert_ne by congruence. assumption.
Qed.

Lemma defaultDays_NoDup : NoDup defaultDays.
Proof. apply (bool_decide_unpack _). vm_compute. exact I. Qed.

Lemma resultsByLocation_snoc results a :
  resultsByLocation moment (results ++ [a])
  = resultsByLocation moment results ≫= fun acc => addActivity moment acc a.
Proof. unfold resultsByLocation. rewrite foldl_app. reflexivity. Qed.

Lemma rangesOf_snoc results a name day :
  rangesOf (results ++ [a]) name day
  = rangesOf results name day
    ++ (if decide (location a = name)
        then labeledRange (activity a) <$> from_option id [] (schedules a !! day)
        else []).
Proof. unfold rangesOf. rewrite bind_app, bind_singleton. reflexivity. Qed.

Lemma elem_of_assign {A} key (value : A) object k v :
  (k, v) ∈ assign key value object → (k, v) = (key, value) ∨ (k, v) ∈ object.
Proof.
  induction object as [|[k0 v0] object IH]; simpl.
  - intros H. apply list_elem_of_singleton in H. now left.
  - destruct (String.eqb k0 key).
    + intros [->|H]%elem_of_cons; [now left|right; now right].
    + intros [->|H]%elem_of_cons; [right; now left|].
      destruct (IH H) as [|]; [now left|right; now right].
Qed.

Lemma addDay_days acc a ds d0 d :
  foldl (addDay moment acc a) (Some d0) ds = Some d →
  ∀ day, is_Some (d !! day) → is_Some (d0 !! day) ∨ day ∈ ds.
Proof.
  revert d0; induction ds as [|day0 ds IH]; intros d0; cbn [foldl].
  - intros [= ->] day H. now left.
  - unfold addDay at 2; cbn [mbind option_bind].
    destruct (daySchedule moment acc a day0) as [times|]; cbn [mbind option_bind].
    2:{ rewrite addDay_failed. discriminate. }
    intros H day Hday. destruct (IH _ H day Hday) as [Hd|Hd]; [|right; now right].
    destruct times; [now left|].
    destruct (decide (day0 = day)) as [->|Hne]; [right; now left|].
    rewrite lookup_insert_ne in Hd by assumption. now left.
Qed.


Lemma aggregated_days results acc name loc day times :
  resultsByLocation moment results = Some acc →
  (name, loc) ∈ acc →
  locDays loc !! day = Some times →
  day ∈ defaultDays.
Proof.
  revert acc name loc. induction results as [|a results IH] using rev_ind;
    intros acc name loc Hacc Hin Hday.
  - injection Hacc as <-. inversion Hin.
  - rewrite resultsByLocation_snoc in Hacc.
    destruct (resultsByLocation moment results) as [acc0|]; [|discriminate]; simpl in Hacc.
    unfold addActivity in Hacc.
    destruct (foldl (addDay moment acc0 a) (Some ∅) defaultDays) as [days|] eqn:Hdays;
      [|discriminate]; simpl in Hacc.
    injection Hacc as <-.
    apply elem_of_assign in Hin as [[= -> ->]|Hin].
    + simpl in Hday.
      destruct (addDay_days _ _ _ _ _ Hdays day) as [He|]; [eauto| |assumption].
      rewrite lookup_empty in He. destruct He; discriminate.
    + eapply IH; eauto.
Qed.

(** C10: the days of every location of the aggregation are among the
    seven days of the week, whatever the keys of the schedules of the
    activities are. *)
Theorem output_days_are_canonical results acc name loc day times :
  resultsByLocation moment results = Some acc →
  (name, loc) ∈ acc →
  locDays loc !! day = Some times →
  day ∈ defaultDays.
Proof. apply aggregated_days. Qed.

Lemma compareTimes_same a b t :
  getTime moment a = Some t → getTime moment b = Some t →
  compareTimes moment a b = Some 0.
Proof.
  intros Ha Hb. unfold compareTimes. rewrite Ha, Hb. cbn [mbind option_bind].
  destruct t as [u|]; [rewrite Z.sub_diag|]; reflexivity.
Qed.

Lemma sortByTime_same a b t :
  getTime moment a = Some t → getTime moment b = Some t →
  sortByTime moment [a; b] = Some [a; b].
Proof.
  intros Ha Hb. cbn [sortByTime insertSorted mbind option_bind].
  rewrite (compareTimes_same a b t Ha Hb). reflexivity.
Qed.

(** C3 fails on the code, whatever [moment] reads: the cell "7-9 pm, 6-9 pm"
    of the row Pickleball gives the ranges "7 - 9 pm" and "6 - 9 pm";
    [getTime] takes of each labeled range the text after the dash, cut at
    an index counted in the whole range, "9 pm (P" for both, so that they
    compare equal and keep the order of the cell: the session that starts
    at 7 comes before the one that starts at 6. *)
Theorem sort_ignores_start_times :
  pageActivities false nepean [(unlabelledTable, eveningRow)] = [eveningActivity]
  ∧ getTime moment "7 - 9 pm (Pickleball)" = Some (moment "9 pm (P")
  ∧ getTime moment "6 - 9 pm (Pickleball)" = Some (moment "9 pm (P")
  ∧ ∃ loc,
      resultsByLocation moment [eveningActivity] = Some [("Nepean Sportsplex", loc)]
      ∧ locDays loc !! "Monday"
        = Some ["7 - 9 pm (Pickleball)"; "6 - 9 pm (Pickleball)"].
Proof.
  split; [vm_compute; reflexivity|].
  split; [reflexivity|]. split; [reflexivity|].
  assert (Hday : ∀ day,
            daySchedule moment [] eveningActivity day
            = Some (if decide (day = "Monday")
                    then ["7 - 9 pm (Pickleball)"; "6 - 9 pm (Pickleball)"] else [])).
  { intros day. unfold daySchedule. cbn [property mbind option_bind from_option app].
    cbn [eveningActivity schedules activity]. case_decide as Hd.
    - subst day. rewrite lookup_singleton_eq.
      apply (sortByTime_same _ _ (moment "9 pm (P")); reflexivity.
    - rewrite lookup_singleton_ne by congruence. reflexivity. }
  destruct (addDay_fold [] eveningActivity defaultDays ∅ defaultDays_NoDup)
    as (days & Hdays & _ & Hin).
  { intros day _. rewrite Hday. eauto. }
  unfold resultsByLocation. cbn [foldl mbind option_bind]. unfold addActivity.
  rewrite Hdays. cbn [mbind option_bind assign]. eexists. split; [reflexivity|].
  cbn [locDays].
  assert (HM : "Monday" ∈ defaultDays) by (vm_compute; left).
  specialize (Hin "Monday" HM (lookup_empty _)). rewrite Hday in Hin.
  rewrite decide_True in Hin by reflexivity.
  destruct (days !! "Monday") as [times|]; cbn in Hin; congruence.
Qed.

End AggregatorFacts.

Lemma output_days_are_canonical_witness :
  let loc := {| locLink := None; locHome := ""; locAddress := ""; locCoordinates := None;
                locDays := <["Monday" := ["1 - 2 pm (Pickleball)"]]> ∅ |} in
  resultsByLocation moment12h [fundayActivity] = Some [("Nepean Sportsplex", loc)]
  ∧ locDays loc !! "Funday" = None
  ∧ "Monday" ∈ defaultDays.
Proof.
  intros loc.
  assert (H : resultsByLocation moment12h [fundayActivity] = Some [("Nepean Sportsplex", loc)])
    by (vm_compute; reflexivity).
  split; [exact H|]. split; [vm_compute; reflexivity|].
  apply (output_days_are_canonical moment12h [fundayActivity]
           [("Nepean Sportsplex", loc)] "Nepean Sportsplex" loc "Monday"
           ["1 - 2 pm (Pickleball)"]).
  - exact H.
  - left.
  - vm_compute. reflexivity.
Defined.

(** ** The base name of a location *)

(** C2 fails on the code: for a name without caption keyword [search]
    gives -1, and [slice(0, -1)] drops the last character of the name. *)
Theorem baseName_drops_last_character :
  test CAPTION_REGEX "Nepean Sportsplex" = false
  ∧ stripCaption "Nepean Sportsplex" = "Nepean Sportsplex"
  ∧ baseName "Nepean Sportsplex" = "Nepean Sportsple"
  ∧ baseName "Nepean Sportsplex starting May 5" = "Nepean Sportsplex".
Proof. repeat split; vm_compute; reflexivity. Qed.

Lemma length_take n s : (String.length (take n s) ≤ n)%nat.
Proof.
  revert s; induction n as [|n IH]; intros [|c s]; simpl; try lia.
  specialize (IH s). lia.
Qed.

Lemma length_trim s : (String.length (trim s) ≤ String.length s)%nat.
Proof.
  unfold trim.
  destruct (trimStart_suffix s) as [a Ha].
  destruct (trimEnd_prefix (trimStart s)) as [b Hb].
  apply (f_equal String.length) in Ha, Hb.
  rewrite length_app_string in Ha, Hb. lia.
Qed.

(** The same happens to every name without caption keyword, the empty
    name apart: its base name is shorter than the name. *)
Lemma baseName_uncaptioned_shorter (name : string) :
  name ≠ "" → test CAPTION_REGEX name = false →
  (String.length (baseName name) < String.length name)%nat.
Proof.
  intros Hname Htest. unfold test in Htest. apply Z.leb_gt in Htest.
  unfold baseName. pose proof (length_trim (slice name 0 (search CAPTION_REGEX name))) as Htrim.
  assert (Hslice : (String.length (slice name 0 (search CAPTION_REGEX name))
                    < String.length name)%nat).
  { unfold slice.
    destruct (Z.ltb_spec (search CAPTION_REGEX name) 0) as [_|]; [|lia].
    destruct (Z.ltb_spec 0 0) as [|_]; [lia|].
    pose proof (length_take
                  (Z.to_nat (Z.max (Z.of_nat (String.length name) + search CAPTION_REGEX name) 0
                             - Z.min 0 (Z.of_nat (String.length name))))
                  (drop (Z.to_nat (Z.min 0 (Z.of_nat (String.length name)))) name)) as Htake.
    destruct name as [|c name]; [congruence|]. simpl String.length in *. lia. }
  lia.
Qed.

(** ** First-seen times *)

Section NoveltyTrackerFacts.

Variable clock : nat → Z.

Lemma forOf_cons {A S} (body : S → A → Timed S) x xs s n :
  forOf body (x :: xs) s n = forOf body xs (body s x n).1 (body s x n).2.
Proof. simpl. unfold mbind, Timed_bind. destruct (body s x n); reflexivity. Qed.

Lemma forOf_app {A S} (body : S → A → Timed S) xs ys s n :
  forOf body (xs ++ ys) s n = forOf body ys (forOf body xs s n).1 (forOf body xs s n).2.
Proof.
  revert s n; induction xs as [|x xs IH]; intros s n; [reflexivity|].
  rewrite <- app_comm_cons, !forOf_cons. apply IH.
Qed.

Lemma stampTimes_keys previous name day times result n :
  forOf (stampTime clock previous name day) times result n
  = forOf (stampKey clock previous) (noveltyKey name day <$> times) result n.
Proof.
  revert result n; induction times as [|t ts IH]; intros result n; [reflexivity|].
  rewrite fmap_cons, !forOf_cons. apply IH.
Qed.

Lemma stampDays_keys previous name loc days result n :
  forOf (stampDay clock previous name loc) days result n
  = forOf (stampKey clock previous)
      (day ← days; noveltyKey name day <$> from_option id [] (locDays loc !! day))
      result n.
Proof.
  revert result n; induction days as [|d ds IH]; intros result n; [reflexivity|].
  rewrite bind_cons, forOf_app, forOf_cons.
  assert (Hd : stampDay clock previous name loc result d n
               = forOf (stampKey clock previous)
                   (noveltyKey name d <$> from_option id [] (locDays loc !! d)) result n).
  { unfold stampDay. destruct (locDays loc !! d) as [times|]; simpl; [|reflexivity].
    apply stampTimes_keys. }
  rewrite Hd. apply IH.
Qed.

Lemma buildDateTable_keys previous current n :
  buildDateTable clock previous current n
  = forOf (stampKey clock previous) (keysWith baseName current) ∅ n.
Proof.
  unfold buildDateTable. generalize (∅ : gmap string Z) as result.
  revert n; induction current as [|[name loc] cs IH]; intros n result; [reflexivity|].
  unfold keysWith. rewrite bind_cons, forOf_app, forOf_cons.
  assert (Hl : stampLocation clock previous result (name, loc) n
               = forOf (stampKey clock previous)
                   (day ← defaultDays;
                    noveltyKey (baseName name) day <$> from_option id [] (locDays loc !! day))
                   result n) by apply stampDays_keys.
  rewrite Hl. apply IH.
Qed.

(** What stamping a list of keys does to the table and to the clock. *)
Lemma stampKeys_spec previous keys result n :
  let out := forOf (stampKey clock previous) keys result n in
  (n ≤ out.2)%nat
  ∧ (∀ key, key ∉ keys → out.1 !! key = result !! key)
  ∧ (∀ key, key ∈ keys →
       match previous !! key with
       | Some date =>
           if date =? 0 then ∃ i, (n ≤ i < out.2)%nat ∧ out.1 !! key = Some (clock i)
           else out.1 !! key = Some date
       | None => ∃ i, (n ≤ i < out.2)%nat ∧ out.1 !! key = Some (clock i)
       end).
Proof.
  revert result n; induction keys as [|k ks IH]; intros result n.
  - simpl. split; [lia|]. split; [reflexivity|]. intros key H. inversion H.
  - cbv zeta. rewrite forOf_cons.
    set (r1 := (stampKey clock previous result k n).1).
    set (n1 := (stampKey clock previous result k n).2).
    destruct (IH r1 n1) as (Hle & Hout & Hin).
    assert (Hn1 : (n ≤ n1)%nat ∧
                  r1 = <[k := from_option id 0 (r1 !! k)]> result ∧
                  match previous !! k with
                  | Some date =>
                      if date =? 0 then n1 = S n ∧ r1 !! k = Some (clock n)
                      else r1 !! k = Some date
                  | None => n1 = S n ∧ r1 !! k = Some (clock n)
                  end).
    { subst r1 n1. unfold stampKey, olderDate, mbind, Timed_bind, mret, Timed_ret, Date_now.
      destruct (previous !! k) as [date|]; [destruct (date =? 0)|]; simpl;
        rewrite lookup_insert_eq; simpl; repeat split; auto; lia. }
    destruct Hn1 as (Hle1 & Hr1 & Hk).
    split; [lia|]. split.
    + intros key Hkey. rewrite Hout by (intros ?; apply Hkey; now right).
      rewrite Hr1. apply lookup_insert_ne. intros ->. apply Hkey. now left.
    + intros key Hkey.
      destruct (decide (key ∈ ks)) as [Hks|Hks].
      * specialize (Hin key Hks).
        destruct (previous !! key) as [date|]; [destruct (date =? 0)|]; auto;
          destruct Hin as (i & Hi & Hv); exists i; split; auto; lia.
      * assert (key = k) as -> by (apply elem_of_cons in Hkey as [|]; [assumption|contradiction]).
        rewrite (Hout k Hks).
        destruct (previous !! k) as [date|]; [destruct (date =? 0)|]; auto;
          destruct Hk as (-> & Hv); exists n; split; auto; lia.
Qed.

Lemma stampKeys_no_reading table keys result n :
  (∀ key, key ∈ keys → ∃ date, table !! key = Some date ∧ date ≠ 0) →
  (forOf (stampKey clock table) keys result n).2 = n.
Proof.
  revert result n; induction keys as [|k ks IH]; intros result n Hkeys; [reflexivity|].
  rewrite forOf_cons.
  destruct (Hkeys k) as (date & Hk & Hdate); [now left|].
  assert (Hn : (stampKey clock table result k n).2 = n).
  { unfold stampKey, olderDate, mbind, Timed_bind, mret, Timed_ret. rewrite Hk.
    destruct (Z.eqb_spec date 0); [contradiction|reflexivity]. }
  rewrite Hn. apply IH. intros key Hkey. apply Hkeys. now right.
Qed.

(** C7: a second run of [buildDateTable] on the same schedule, with the
    table of the first run as the previous table, returns that table
    unchanged and does not read the clock, at whatever time it is made;
    the clock never reads 0, the first millisecond of 1970. *)
Theorem buildDateTable_idempotent previous current n n2
    (Hclock : ∀ i, clock i ≠ 0) :
  let first := (buildDateTable clock previous current n).1 in
  buildDateTable clock first current n2 = (first, n2).
Proof.
  intros first. subst first.
  rewrite !buildDateTable_keys.
  set (keys := keysWith baseName current).
  destruct (stampKeys_spec previous keys ∅ n) as (_ & Hout & Hin).
  set (first := (forOf (stampKey clock previous) keys ∅ n).1) in *.
  assert (Hkeys : ∀ key, key ∈ keys → ∃ date, first !! key = Some date ∧ date ≠ 0).
  { intros key Hkey. specialize (Hin key Hkey).
    destruct (previous !! key) as [date|]; [destruct (Z.eqb_spec date 0)|];
      try (destruct Hin as (i & _ & ->)); eauto. }
  destruct (stampKeys_spec first keys ∅ n2) as (_ & Hout2 & Hin2).
  rewrite (surjective_pairing (forOf (stampKey clock first) keys ∅ n2)).
  f_equal; [|now apply stampKeys_no_reading].
  apply map_eq. intros key.
  destruct (decide (key ∈ keys)) as [Hkey|Hkey].
  - specialize (Hin2 key Hkey). destruct (Hkeys key Hkey) as (date & Hd & Hne).
    rewrite Hd in Hin2 |- *. destruct (Z.eqb_spec date 0); [contradiction|assumption].
  - rewrite (Hout2 key Hkey), (Hout key Hkey). reflexivity.
Qed.

End NoveltyTrackerFacts.

(** C1 fails on the code: "Nepean Sportsplex" holds no caption, so the key
    of its range is "Nepean Sportsplex|Monday|1 - 2 pm"; whatever the
    previous table and the clock are, the table [buildDateTable] returns
    does not have it: its one key is "Nepean Sportsple|Monday|1 - 2 pm",
    the name cut by [slice(0, -1)], and a date the previous table keeps
    under the key of the claim is not carried forward. *)
Theorem buildDateTable_misses_uncaptioned_key
    (clock : nat → Z) (previous : gmap string Z) (n : nat) :
  let table := (buildDateTable clock previous nepeanSchedule n).1 in
  table !! "Nepean Sportsplex|Monday|1 - 2 pm" = None
  ∧ (∀ key, is_Some (table !! key) ↔ key = "Nepean Sportsple|Monday|1 - 2 pm")
  ∧ (previous !! "Nepean Sportsple|Monday|1 - 2 pm" = None →
     table !! "Nepean Sportsple|Monday|1 - 2 pm" = Some (clock n)).
Proof.
  cbv zeta. rewrite buildDateTable_keys.
  change (keysWith baseName nepeanSchedule) with ["Nepean Sportsple|Monday|1 - 2 pm"].
  destruct (stampKeys_spec clock previous ["Nepean Sportsple|Monday|1 - 2 pm"] ∅ n)
    as (_ & Hout & Hin).
  assert (Hsome : is_Some ((forOf (stampKey clock previous)
                              ["Nepean Sportsple|Monday|1 - 2 pm"] ∅ n).1
                           !! "Nepean Sportsple|Monday|1 - 2 pm")).
  { specialize (Hin _ (list_elem_of_here _ _)).
    destruct (previous !! "Nepean Sportsple|Monday|1 - 2 pm") as [date|];
      [destruct (date =? 0)|]; try (destruct Hin as (i & _ & ->)); try rewrite Hin; eauto. }
  split; [|split].
  - rewrite Hout; [apply lookup_empty|]. intros H. apply list_elem_of_singleton in H.
    discriminate H.
  - intros key. split; [|intros ->; exact Hsome].
    intros Hkey. destruct (decide (key = "Nepean Sportsple|Monday|1 - 2 pm")) as [|Hne];
      [assumption|].
    rewrite Hout, lookup_empty in Hkey; [destruct Hkey; discriminate|].
    intros H. apply list_elem_of_singleton in H. contradiction.
  - intros Hprev. rewrite forOf_cons. cbn [forOf mret Timed_ret fst].
    unfold stampKey, olderDate. rewrite Hprev.
    unfold mbind, Timed_bind, Date_now, mret, Timed_ret. cbn [fst].
    apply lookup_insert_eq.
Qed.

Lemma buildDateTable_idempotent_witness :
  let first := (buildDateTable steadyClock ∅ captionedSchedule 0%nat).1 in
  buildDateTable steadyClock first captionedSchedule 5%nat = (first, 5%nat).
Proof.
  apply (buildDateTable_idempotent steadyClock ∅ captionedSchedule 0%nat 5%nat).
  intros i. unfold steadyClock. lia.
Defined.

(** ** The cache loaders *)

(** C4, as stated, fails: when the file cannot be read the promise is
    rejected with the read error, whatever [JSON.parse] does. *)
Lemma missing_file_is_rejected :
  ¬ (∀ (JSON_parse : string → option (gmap string Z)) (readFile : string → ReadResult),
       ∃ table, getPreviousTimes JSON_parse ∅ readFile = Fulfilled table).
Proof.
  intros H.
  destruct (H (fun _ => Some ∅) (fun _ => ReadError "ENOENT")) as [table Ht].
  discriminate Ht.
Qed.

(** C4, amended: when the file is read, both loaders fulfil their promise,
    with the parsed contents, or with the empty object when the contents do
    not parse (an empty file is read as the text of the empty object);
    when the file cannot be read, both reject with the read error. *)
Theorem loaders_outcome {A : Type} (JSON_parse : string → option A) (emptyObject : A)
    (readFile : string → ReadResult) :
  let outcome (result : ReadResult) : Promise A :=
    match result with
    | ReadError err => Rejected err
    | ReadData data =>
        Fulfilled (from_option id emptyObject
                     (JSON_parse (if nonEmpty data then data else "{}")))
    end in
  getPreviousTimes JSON_parse emptyObject readFile
    = outcome (readFile "./cache/date-scraped.json")
  ∧ getPreviousSchedule JSON_parse emptyObject readFile
    = outcome (readFile "./cache/schedule.json").
Proof.
  unfold getPreviousTimes, getPreviousSchedule, onRead.
  split.
  - destruct (readFile "./cache/date-scraped.json") as [err|data]; simpl.
    + destruct (JSON_parse "{}"); reflexivity.
    + destruct (JSON_parse _); reflexivity.
  - destruct (readFile "./cache/schedule.json") as [err|data]; simpl.
    + destruct (JSON_parse "{}"); reflexivity.
    + destruct (JSON_parse _); reflexivity.
Qed.

(** * Further properties *)

(** ** More facts about the string primitives *)











(** *** Trimming twice *)

Lemma trimEnd_trimEnd s : trimEnd (trimEnd s) = trimEnd s.
Proof.
  induction s as [|c s IH]; [reflexivity|]. rewrite trimEnd_cons.
  destruct (trimStart (String c s)) as [|t0 t] eqn:Ht; [reflexivity|].
  rewrite trimEnd_cons, IH.
  destruct (trimStart (String c (trimEnd s))) as [|u0 u] eqn:Hu; [|reflexivity].
  exfalso. destruct (trimEnd_rest s) as (b & Hs & Hb).
  assert (H : trimStart (String c (trimEnd s) +:+ b) = "")
    by (rewrite (trimStart_app _ _ Hu); exact Hb).
  rewrite append_cons, <- Hs, Ht in H. discriminate H.
Qed.

Lemma spaceWidth_prefix a b : spaceWidth (a +:+ b) = 0%nat → spaceWidth a = 0%nat.
Proof.
  intros H. destruct (spaceWidth a) as [|k] eqn:Hk; [reflexivity|].
  rewrite (spaceWidth_app a b k Hk) in H. discriminate H.
Qed.

Lemma trim_trim s : trim (trim s) = trim s.
Proof.
  unfold trim. destruct (trimEnd_prefix (trimStart s)) as [b Hb].
  rewrite (trimStart_fixed (trimEnd (trimStart s))); [apply trimEnd_trimEnd|].
  apply (spaceWidth_prefix _ b). rewrite <- Hb. apply spaceWidth_trimStart.
Qed.

Lemma stripAny_shorter seps s rest :
  stripAny seps s = Some rest → (String.length rest < String.length s)%nat.
Proof.
  induction seps as [|p seps IH]; cbn [stripAny]; [discriminate|].
  destruct p as [|a p]; [destruct (stripPrefix "" s); apply IH|].
  destruct (stripPrefix (String a p) s) as [rest'|] eqn:Hrest; [|apply IH].
  intros [= <-]. apply stripPrefix_app in Hrest. apply (f_equal String.length) in Hrest.
  rewrite length_app_string in Hrest. simpl in Hrest. lia.
Qed.

Lemma split_go_S fuel seps c s :
  split_go (S fuel) seps (String c s)
  = match stripAny seps (String c s) with
    | Some rest => "" :: split_go fuel seps rest
    | None =>
        match split_go fuel seps s with
        | piece :: pieces => String c piece :: pieces
        | [] => [String c ""]
        end
    end.
Proof. reflexivity. Qed.

Lemma split_go_head seps fuel s :
  (String.length s < fuel)%nat →
  ∃ pieces, split_go fuel seps s = upTo seps s :: pieces
            ∧ (pieces = [] ↔ matchesIn seps s = false).
Proof.
  revert s; induction fuel as [|fuel IH]; intros s Hlen; [lia|].
  destruct s as [|c s]; [exists []; split; [reflexivity|tauto]|].
  rewrite split_go_S. cbn [upTo matchesIn]. simpl in Hlen.
  destruct (stripAny seps (String c s)) as [rest|] eqn:Hrest.
  - apply stripAny_shorter in Hrest. simpl in Hrest.
    destruct (IH rest) as (pieces & -> & _); [lia|].
    eexists. split; [reflexivity|]. split; discriminate.
  - destruct (IH s) as (pieces & -> & Hp); [lia|]. eauto.
Qed.

Lemma split_head seps s : head (split seps s) = Some (upTo seps s).
Proof.
  unfold split. destruct (split_go_head seps (S (String.length s)) s) as (pieces & -> & _); [lia|].
  reflexivity.
Qed.

Lemma split_second seps s : split seps s !! 1%nat = None ↔ matchesIn seps s = false.
Proof.
  unfold split. destruct (split_go_head seps (S (String.length s)) s) as (pieces & -> & Hp); [lia|].
  rewrite <- Hp. destruct pieces; simpl; split; congruence.
Qed.

Lemma matchesIn_dash s :
  matchesIn ["–"; "-"] s = includes "–" s || includes "-" s.
Proof.
  induction s as [|c s IH]; [reflexivity|].
  cbn [matchesIn]. rewrite !includes_cons.
  assert (H : stripAny ["–"; "-"] (String c s)
              = match stripPrefix "–" (String c s) with
                | Some rest => Some rest
                | None => stripPrefix "-" (String c s)
                end).
  { cbn [stripAny]. destruct (stripPrefix "–" (String c s)); [reflexivity|].
    destruct (stripPrefix "-" (String c s)); reflexivity. }
  rewrite H.
  destruct (startsWith "–" (String c s)) eqn:H1.
  - apply stripPrefix_startsWith in H1 as [rest ->]. reflexivity.
  - destruct (stripPrefix "–" (String c s)) eqn:H1'.
    { assert (Hs : startsWith "–" (String c s) = true)
        by (apply stripPrefix_startsWith; rewrite H1'; eauto). congruence. }
    destruct (startsWith "-" (String c s)) eqn:H2.
    + apply stripPrefix_startsWith in H2 as [rest ->]. simpl. now rewrite orb_true_r.
    + destruct (stripPrefix "-" (String c s)) eqn:H2'.
      { assert (Hs : startsWith "-" (String c s) = true)
          by (apply stripPrefix_startsWith; rewrite H2'; eauto). congruence. }
      rewrite IH. simpl. reflexivity.
Qed.

Lemma getTime_none moment x :
  getTime moment x = None ↔ includes "-" x = false ∧ includes "–" x = false.
Proof.
  unfold getTime.
  destruct (split ["–"; "-"] x !! 1%nat) as [piece|] eqn:Hp; cbn [mbind option_bind].
  - split; [discriminate|]. intros [H1 H2].
    assert (Hn : split ["–"; "-"] x !! 1%nat = None).
    { apply split_second. rewrite matchesIn_dash, H1, H2. reflexivity. }
    congruence.
  - split; [|reflexivity]. intros _. apply split_second in Hp.
    rewrite matchesIn_dash in Hp. apply orb_false_elim in Hp. tauto.
Qed.

Lemma timeWithoutActivity_upTo s : timeWithoutActivity s = upTo [" ("] s.
Proof. unfold timeWithoutActivity. rewrite split_head. reflexivity. Qed.

Lemma stripAny_paren s :
  stripAny [" ("] s = stripPrefix " (" s.
Proof. cbn [stripAny]. destruct (stripPrefix " (" s); reflexivity. Qed.

Lemma upTo_paren_app t r : upTo [" ("] (t +:+ " (" +:+ r) = upTo [" ("] t.
Proof.
  induction t as [|c t IH]; [reflexivity|].
  rewrite append_cons. cbn [upTo]. rewrite !stripAny_paren, IH.
  destruct t as [|d t].
  - simpl. destruct (Ascii.eqb " " c); reflexivity.
  - rewrite append_cons. simpl. destruct (Ascii.eqb " " c); [|reflexivity].
    destruct (Ascii.eqb "(" d); reflexivity.
Qed.

Lemma upTo_none s : includes " (" s = false → upTo [" ("] s = s.
Proof.
  induction s as [|c s IH]; [reflexivity|].
  rewrite includes_cons. intros [H1 H2]%orb_false_elim.
  cbn [upTo]. rewrite stripAny_paren.
  destruct (stripPrefix " (" (String c s)) eqn:Hs.
  - assert (Ht : startsWith " (" (String c s) = true)
      by (apply stripPrefix_startsWith; rewrite Hs; eauto).
    congruence.
  - rewrite (IH H2). reflexivity.
Qed.

Lemma timeWithoutActivity_labeledRange activityName time :
  timeWithoutActivity (labeledRange activityName time)
  = timeWithoutActivity (fixColons time).
Proof. unfold labeledRange. rewrite !timeWithoutActivity_upTo. apply upTo_paren_app. Qed.

(** X11: the time in the key of a labeled range does not depend on the
    activity: it is the time range with its colons set right, cut before its
    first " (" if it has one. *)
Theorem key_time_of_labeled_range (activityName time : string) :
  timeWithoutActivity (labeledRange activityName time)
  = timeWithoutActivity (fixColons time)
  ∧ (includes " (" (fixColons time) = false →
     timeWithoutActivity (labeledRange activityName time) = fixColons time).
Proof.
  split; [apply timeWithoutActivity_labeledRange|]. intros Hnone.
  rewrite timeWithoutActivity_labeledRange, timeWithoutActivity_upTo.
  now apply upTo_none.
Qed.

(** ** The tokens of a cell *)

(** *** The pieces of a cell *)











Lemma filter_all {A} (l : list A) : List.filter (fun _ => true) l = l.
Proof. induction l as [|x l IH]; simpl; congruence. Qed.

Lemma filter_sublist {A} (f : A → bool) (l : list A) : sublist (List.filter f l) l.
Proof.
  induction l as [|x l IH]; simpl; [constructor|].
  destruct (f x); now constructor.
Qed.

Lemma cellSchedule_filter day text :
  cellSchedule true day text
  = List.filter (eveningsAndWeekends day) (cellSchedule false day text).
Proof. unfold cellSchedule. rewrite filter_all. reflexivity. Qed.

(** X2: the evenings-and-weekends filter only removes tokens; it removes
    none on a day whose label holds sat or sun; on any other day, also when
    the cell has no day, it keeps the tokens that contain pm and begin with
    an integer from 5 to 9. *)
Theorem filter_only_removes (day : option string) (text : string) :
  sublist (cellSchedule true day text) (cellSchedule false day text)
  ∧ (test (anyWord ["sat"; "sun"]) (toString day) = true →
     cellSchedule true day text = cellSchedule false day text)
  ∧ (test (anyWord ["sat"; "sun"]) (toString day) = false →
     ∀ token, token ∈ cellSchedule true day text
              ↔ token ∈ cellSchedule false day text
                ∧ includes "pm" token = true
                ∧ ∃ n, parseInt token = Some n ∧ 5 ≤ n ≤ 9).
Proof.
  rewrite cellSchedule_filter. split; [apply filter_sublist|]. split.
  - intros Hday. rewrite <- (filter_all (cellSchedule false day text)) at 2.
    apply filter_ext. intros token. unfold eveningsAndWeekends. now rewrite Hday.
  - intros Hday token. rewrite list_elem_of_In, filter_In, <- list_elem_of_In.
    unfold eveningsAndWeekends. rewrite Hday.
    destruct (includes "pm" token); simpl; [|intuition discriminate].
    destruct (parseInt token) as [n|].
    + split.
      * intros [Hin H]. split; [assumption|]. split; [reflexivity|]. exists n.
        split; [reflexivity|]. lia.
      * intros (Hin & _ & m & [= <-] & Hm). split; [assumption|].
        destruct (Z.eqb_spec n 12); lia.
    + split; [intros [_ [=]]|intros (_ & _ & m & [=] & _)].
Qed.

(** *** Day labels *)

Lemma includes_first x w s :
  includes (String x w) s = true → includes (String x "") s = true.
Proof.
  induction s as [|c s IH]; [discriminate|]. rewrite !includes_cons.
  intros [H|H]%orb_true_iff; apply orb_true_iff; [left|right; auto].
  apply startsWith_cons in H as [-> _]. apply startsWith_cons. now split.
Qed.

Lemma includes_char_text x cells :
  includes (String x "") (text cells) = true →
  ∃ cell, cell ∈ cells ∧ includes (String x "") cell = true.
Proof.
  induction cells as [|cell cells IH]; [discriminate|]. rewrite text_cons.
  intros H. destruct (includes (String x "") cell) eqn:Hcell.
  - exists cell. split; [now left|assumption].
  - destruct IH as (cell' & Hin & Hc).
    + revert H. clear -Hcell. induction cell as [|c cell IH]; [now rewrite append_empty|].
      rewrite append_cons, !includes_cons in *.
      apply orb_false_elim in Hcell as [H1 H2].
      simpl startsWith in *. rewrite H1. simpl. auto.
    + exists cell'. split; [now right|assumption].
Qed.

Lemma labels_nonempty cells :
  includes "Monday" (text cells) = true →
  List.filter nonEmpty (trim <$> cells) ≠ [].
Proof.
  intros H%includes_first%includes_char_text. destruct H as (cell & Hin & Hcell).
  assert (Hlabel : trim cell ∈ List.filter nonEmpty (trim <$> cells)).
  { apply list_elem_of_In, filter_In. split.
    - apply list_elem_of_In, list_elem_of_fmap. eauto.
    - unfold trim. apply includes_trimStart in Hcell; [|reflexivity].
      apply includes_trimEnd in Hcell; [|reflexivity].
      destruct (trimEnd (trimStart cell)); [discriminate Hcell|reflexivity]. }
  intros Hnil. rewrite Hnil in Hlabel. inversion Hlabel.
Qed.

Lemma labels_trimmed cells label :
  label ∈ List.filter nonEmpty (trim <$> cells) → label ≠ "" ∧ trim label = label.
Proof.
  intros [Hin Hne]%list_elem_of_In%filter_In.
  apply list_elem_of_In, list_elem_of_fmap in Hin as (cell & -> & _).
  split; [|apply trim_trim]. intros Heq. rewrite Heq in Hne. discriminate Hne.
Qed.

(** X3: the days of a table are never empty, and every label is trimmed
    and not empty. *)
Theorem getDays_labels (table : Table) :
  getDays table ≠ []
  ∧ ∀ label, label ∈ getDays table → label ≠ "" ∧ trim label = label.
Proof.
  unfold getDays.
  destruct (includes "Monday" (text (theadTh table))) eqn:Hhead.
  { split; [now apply labels_nonempty|apply labels_trimmed]. }
  destruct (includes "Monday" (text (firstRowTd table))) eqn:Hrow.
  { split; [now apply labels_nonempty|apply labels_trimmed]. }
  split; [discriminate|].
  intros label Hlabel. apply list_elem_of_In in Hlabel. simpl in Hlabel.
  repeat destruct Hlabel as [<-|Hlabel]; try (split; [discriminate|reflexivity]).
  contradiction.
Qed.

(** *** Keys of the schedules of a row *)

Lemma toSchedules_fold entries (result0 : gmap string (list string)) key times :
  foldl (fun result current =>
           match schedule current with
           | [] => result
           | _ :: _ => <[toString (day current) := schedule current]> result
           end) result0 entries !! key = Some times →
  result0 !! key = Some times
  ∨ (times ≠ [] ∧ ∃ entry, entry ∈ entries ∧ toString (day entry) = key
                            ∧ schedule entry = times).
Proof.
  revert result0. induction entries as [|entry entries IH]; intros result0 H; [now left|].
  cbn [foldl] in H. apply IH in H as [H|(Hne & entry' & Hin & Hk & Hs)].
  - destruct (schedule entry) as [|t ts] eqn:Hsched; [now left|].
    destruct (decide (toString (day entry) = key)) as [Hkey|Hkey].
    + rewrite Hkey, lookup_insert_eq in H. injection H as <-.
      right. split; [discriminate|]. exists entry. split; [now left|]. auto.
    + rewrite lookup_insert_ne in H by assumption. now left.
  - right. split; [assumption|]. exists entry'. split; [now right|]. auto.
Qed.

Lemma toSchedules_lookup entries key times :
  toSchedules entries !! key = Some times →
  times ≠ [] ∧ ∃ entry, entry ∈ entries ∧ toString (day entry) = key ∧ schedule entry = times.
Proof.
  intros H. apply toSchedules_fold in H as [H|H]; [|exact H].
  rewrite lookup_empty in H. discriminate H.
Qed.

Lemma cellEntries_lookup e days row entry :
  entry ∈ cellEntries e days row →
  ∃ i cell, rowTd row !! i = Some cell
            ∧ entry = cellEntry e days (activityIsHead row) i cell.
Proof.
  unfold cellEntries. intros H. apply list_elem_of_lookup in H as [i H].
  rewrite list_lookup_imap in H.
  destruct (rowTd row !! i) as [cell|] eqn:Hcell; [|discriminate].
  injection H as <-. eauto.
Qed.

Lemma at_index_elem {A} (l : list A) i x : at_index l i = Some x → x ∈ l.
Proof.
  unfold at_index. destruct (i <? 0); [discriminate|].
  intros H. apply list_elem_of_lookup. eauto.
Qed.

(** X4: every list in the schedules of a row is not empty and holds the
    tokens of one data cell; its key is a day label of the table or the
    text "undefined"; it is a day label when the row has a header cell and
    no more data cells than the table has days. *)
Theorem schedule_keys (e : bool) (page : Page) (table : Table) (row : Row)
    (key : string) (times : list string) :
  schedules (extractRow e page table row) !! key = Some times →
  times ≠ []
  ∧ (∃ i cell, rowTd row !! i = Some cell
       ∧ times = cellSchedule e (at_index (getDays table) (actualIndex (activityIsHead row) (Z.of_nat i))) cell)
  ∧ (key ∈ getDays table ∨ key = "undefined")
  ∧ (activityIsHead row = true →
     (length (rowTd row) ≤ length (getDays table))%nat →
     key ∈ getDays table).
Proof.
  cbn [extractRow schedules]. intros H.
  apply toSchedules_lookup in H as (Hne & entry & Hentry & Hkey & Htimes).
  apply cellEntries_lookup in Hentry as (i & cell & Hcell & ->).
  cbn [cellEntry day schedule] in Hkey, Htimes.
  split; [assumption|]. split; [eauto|]. split.
  - destruct (at_index (getDays table) _) as [d|] eqn:Hd; cbn in Hkey; subst key.
    + left. eapply at_index_elem; eauto.
    + now right.
  - intros Hhead Hlen. rewrite Hhead in Hkey. unfold actualIndex, at_index in Hkey.
    destruct (Z.ltb_spec (Z.of_nat i - 0) 0) as [|_]; [lia|].
    replace (Z.to_nat (Z.of_nat i - 0)) with i in Hkey by lia.
    apply lookup_lt_Some in Hcell.
    destruct (lookup_lt_is_Some_2 (getDays table) i) as [d Hd]; [lia|].
    rewrite Hd in Hkey. cbn in Hkey. subst key. apply list_elem_of_lookup. eauto.
Qed.

(** *** Rows without times *)

Lemma toSchedules_empty entries :
  Forall (fun entry => schedule entry = []) entries → toSchedules entries = ∅.
Proof.
  intros H. unfold toSchedules. generalize (∅ : gmap string (list string)).
  induction H as [|entry entries Hentry _ IH]; intros result; [reflexivity|].
  cbn [foldl]. rewrite Hentry. apply IH.
Qed.

(** X5: a row none of whose cells has a candidate that begins with an
    integer gives no activity, whatever the other rows are. *)
Theorem row_without_times_is_dropped (e : bool) (page : Page) (table : Table) (row : Row)
    (before after : list (Table * Row)) :
  forallb noTimes (rowTd row) = true →
  pageActivities e page (before ++ (table, row) :: after)
  = pageActivities e page (before ++ after).
Proof.
  intros Hcells. unfold pageActivities.
  rewrite !List.filter_app, !fmap_app, !List.filter_app. f_equal.
  cbn [List.filter].
  destruct (includes "Pickleball" _); [|reflexivity].
  rewrite fmap_cons. cbn [List.filter fst snd].
  assert (Hempty : schedules (extractRow e page table row) = ∅).
  { cbn [extractRow schedules]. apply toSchedules_empty, Forall_forall.
    intros entry (i & cell & Hcell & ->)%cellEntries_lookup.
    cbn [cellEntry schedule]. unfold cellSchedule.
    rewrite forallb_forall in Hcells.
    assert (Hno : noTimes cell = true).
    { apply Hcells, list_elem_of_In, list_elem_of_lookup. eauto. }
    unfold noTimes in Hno.
    destruct (List.filter startsWithInt (candidates cell)); [reflexivity|discriminate Hno]. }
  rewrite Hempty. reflexivity.
Qed.

Lemma row_without_times_is_dropped_witness :
  pageActivities false nepean ([] ++ (unlabelledTable, closedRow) :: [(mondayTuesdayTable, headedRow)])
  = pageActivities false nepean ([] ++ [(mondayTuesdayTable, headedRow)]).
Proof.
  apply (row_without_times_is_dropped false nepean unlabelledTable closedRow
           [] [(mondayTuesdayTable, headedRow)]).
  reflexivity.
Defined.

Lemma schedule_keys_witness :
  ["3 - 4:30pm"] ≠ []
  ∧ (∃ i cell, rowTd headedRow !! i = Some cell
       ∧ ["3 - 4:30pm"]
         = cellSchedule false
             (at_index (getDays mondayTuesdayTable)
                (actualIndex (activityIsHead headedRow) (Z.of_nat i))) cell)
  ∧ ("Tuesday" ∈ getDays mondayTuesdayTable ∨ "Tuesday" = "undefined")
  ∧ (activityIsHead headedRow = true →
     (length (rowTd headedRow) ≤ length (getDays mondayTuesdayTable))%nat →
     "Tuesday" ∈ getDays mondayTuesdayTable).
Proof.
  apply (schedule_keys false nepean mondayTuesdayTable headedRow "Tuesday" ["3 - 4:30pm"]).
  vm_compute. reflexivity.
Defined.

(** ** The location of an activity and its base name *)

Lemma take_all n s : (String.length s ≤ n)%nat → take n s = s.
Proof.
  revert s; induction n as [|n IH]; intros [|c s]; simpl; try reflexivity; try lia.
  intros H. rewrite IH by lia. reflexivity.
Qed.

Lemma take_app a b : take (String.length a) (a +:+ b) = a.
Proof. induction a as [|c a IH]; [destruct b; reflexivity|]. simpl. now rewrite IH. Qed.

Lemma search_bounds re s : -1 ≤ search re s ≤ Z.of_nat (String.length s).
Proof.
  induction s as [|c s IH]; simpl.
  - destruct (re ""); lia.
  - destruct (re (String c s)); [lia|]. destruct (Z.ltb_spec (search re s) 0); lia.
Qed.

Lemma search_found re s :
  0 ≤ search re s → re (drop (Z.to_nat (search re s)) s) = true.
Proof.
  induction s as [|c s IH]; simpl.
  - destruct (re "") eqn:H; [intros _; exact H|lia].
  - destruct (re (String c s)) eqn:H; [intros _; exact H|].
    destruct (Z.ltb_spec (search re s) 0) as [|Hs]; [lia|]. intros _.
    replace (Z.to_nat (search re s + 1)) with (S (Z.to_nat (search re s))) by lia.
    simpl. auto.
Qed.

Lemma search_here re s : re s = true → search re s = 0.
Proof. intros H. destruct s; simpl; rewrite H; reflexivity. Qed.

Lemma sliceFrom_drop s i :
  0 ≤ i ≤ Z.of_nat (String.length s) → sliceFrom s i = drop (Z.to_nat i) s.
Proof.
  intros Hi. unfold sliceFrom, slice.
  destruct (Z.ltb_spec i 0); [exfalso; lia|].
  destruct (Z.ltb_spec (Z.of_nat (String.length s)) 0); [exfalso; lia|].
  rewrite (Z.min_l i) by lia. rewrite Z.min_id.
  apply take_all. rewrite length_drop. lia.
Qed.

Lemma search_app re a t :
  within re t → search re a < 0 →
  search re (a +:+ t)
  = if search re t <? 0 then -1 else Z.of_nat (String.length a) + search re t.
Proof.
  intros Hwithin. induction a as [|c a IH]; intros Hnone.
  - rewrite append_empty. simpl. pose proof (search_bounds re t).
    destruct (Z.ltb_spec (search re t) 0); lia.
  - simpl in Hnone. destruct (re (String c a)) eqn:Hre; [lia|].
    destruct (Z.ltb_spec (search re a) 0) as [Ha|]; [|lia].
    rewrite append_cons. cbn [search]. rewrite <- append_cons, Hwithin, Hre, (IH Ha).
    destruct (Z.ltb_spec (search re t) 0) as [|Ht]; [reflexivity|].
    destruct (Z.ltb_spec (Z.of_nat (String.length a) + search re t) 0); [lia|].
    simpl String.length. lia.
Qed.

Lemma startsWith_word_space w u t :
  hasChar " " w = false →
  startsWith w (toLowerCase (take (String.length w) (u +:+ " " +:+ t)))
  = startsWith w (toLowerCase (take (String.length w) u)).
Proof.
  revert u; induction w as [|x w IH]; intros u Hw; [reflexivity|].
  simpl in Hw. apply orb_false_elim in Hw as [Hx Hw].
  destruct u as [|c u].
  - rewrite append_empty. simpl. rewrite Ascii.eqb_sym.
    change (lower " ") with " "%char. rewrite Hx. reflexivity.
  - rewrite append_cons. simpl. rewrite (IH u Hw). reflexivity.
Qed.

Lemma anyWord_within words t :
  forallb (fun w => negb (hasChar " " w)) words = true →
  within (anyWord words) (" " +:+ t).
Proof.
  intros Hwords u. unfold anyWord.
  induction words as [|w words IH]; [reflexivity|].
  cbn [forallb] in Hwords. apply andb_true_iff in Hwords as [Hw Hwords].
  cbn [existsb]. rewrite (IH Hwords), startsWith_word_space; [reflexivity|].
  now apply negb_true_iff in Hw.
Qed.

Lemma CAPTION_REGEX_within t : within CAPTION_REGEX (" " +:+ t).
Proof. unfold CAPTION_REGEX. now apply anyWord_within. Qed.

Lemma trimStart_snoc u : trimStart (u +:+ " ") = "" → trimStart u = "".
Proof.
  induction u as [u H|u k H IH] using leading_space_ind.
  - destruct u as [|c u]; [reflexivity|].
    rewrite trimStart_fixed; [now rewrite append_cons|].
    rewrite spaceWidth_app_ascii; [assumption|discriminate|].
    apply Nat.ltb_lt. vm_compute. reflexivity.
  - rewrite (trimStart_unfold (u +:+ " ")), (spaceWidth_app u " " k H).
    rewrite drop_app by (pose proof (spaceWidth_le u); lia).
    rewrite (trimStart_unfold u), H. exact IH.
Qed.

Lemma trimEnd_space s : trimEnd (s +:+ " ") = trimEnd s.
Proof.
  induction s as [|c s IH]; [reflexivity|].
  rewrite append_cons, !trimEnd_cons, IH, <- append_cons.
  destruct (trimStart (String c s)) as [|t0 t] eqn:Ht.
  - rewrite (trimStart_app _ _ Ht). reflexivity.
  - destruct (trimStart (String c s +:+ " ")) as [|u0 u] eqn:Hu; [|reflexivity].
    apply trimStart_snoc in Hu. congruence.
Qed.

Lemma trim_fixed_start s : trim s = s → trimStart s = s.
Proof.
  intros H. destruct (trimStart_suffix s) as [a Ha].
  pose proof (length_trim s) as Hlen. unfold trim in *.
  destruct (trimEnd_prefix (trimStart s)) as [b Hb].
  assert (Hl : (String.length (trimStart s) ≥ String.length s)%nat).
  { apply (f_equal String.length) in Hb. rewrite length_app_string, H in Hb. lia. }
  apply (f_equal String.length) in Ha as Hla. rewrite length_app_string in Hla.
  destruct a; [now rewrite append_empty in Ha|]. simpl in Hla. lia.
Qed.

Lemma trim_space s : trim s = s → trim (s +:+ " ") = s.
Proof.
  intros H. pose proof (trim_fixed_start s H) as Hs.
  unfold trim in *. rewrite Hs in H.
  destruct s as [|c s]; [reflexivity|].
  pose proof (spaceWidth_trimStart (String c s)) as Hw. rewrite Hs in Hw.
  rewrite trimStart_fixed, trimEnd_space; [exact H|].
  rewrite spaceWidth_app_ascii; [assumption|discriminate|].
  apply Nat.ltb_lt. vm_compute. reflexivity.
Qed.

Lemma captionClause table :
  test CAPTION_REGEX (tableCaption table) = true →
  ∃ clause, tableCaptionClause table = Some clause ∧ CAPTION_REGEX clause = true.
Proof.
  intros Htest. unfold tableCaptionClause. rewrite Htest. eexists. split; [reflexivity|].
  unfold test in Htest. apply Z.leb_le in Htest.
  rewrite sliceFrom_drop by (pose proof (search_bounds CAPTION_REGEX (tableCaption table)); lia).
  now apply search_found.
Qed.

(** X6: when the name of the page is trimmed, not empty and without
    caption keyword, and the caption of the table holds a keyword, the
    location of the activity is the name, a space and the caption from its
    first keyword on, and the base name [buildDateTable] derives from that
    location is the name of the page again. *)
Theorem captioned_location_base_name (e : bool) (page : Page) (table : Table) (row : Row) :
  nonEmpty (pageLocation page) = true →
  trim (pageLocation page) = pageLocation page →
  test CAPTION_REGEX (pageLocation page) = false →
  test CAPTION_REGEX (tableCaption table) = true →
  ∃ clause,
    tableCaptionClause table = Some clause
    ∧ location (extractRow e page table row) = pageLocation page +:+ " " +:+ clause
    ∧ baseName (location (extractRow e page table row)) = pageLocation page.
Proof.
  intros Hne Htrim Hname Hcaption.
  destruct (captionClause table Hcaption) as (clause & Hclause & Hre).
  exists clause. split; [assumption|].
  assert (Hloc : location (extractRow e page table row)
                 = pageLocation page +:+ " " +:+ clause).
  { cbn [extractRow location]. rewrite Hclause. cbn [from_option id List.filter].
    destruct (pageLocation page) as [|c l]; [discriminate Hne|].
    destruct clause as [|c' clause]; [discriminate Hre|]. reflexivity. }
  split; [assumption|]. rewrite Hloc. unfold baseName.
  assert (Hsearch : search CAPTION_REGEX (pageLocation page +:+ " " +:+ clause)
                    = Z.of_nat (String.length (pageLocation page)) + 1).
  { unfold test in Hname. apply Z.leb_gt in Hname.
    rewrite search_app; [|apply CAPTION_REGEX_within|assumption].
    assert (Hs : search CAPTION_REGEX (" " +:+ clause) = 1).
    { change (" " +:+ clause) with (String " " clause). cbn [search].
      change (String " " clause) with ("" +:+ " " +:+ clause).
      rewrite (CAPTION_REGEX_within clause "").
      change (CAPTION_REGEX "") with false. cbv iota.
      rewrite (search_here _ _ Hre). reflexivity. }
    rewrite Hs. reflexivity. }
  rewrite Hsearch.
  assert (Hslice : ∀ a b, slice (a +:+ b) 0 (Z.of_nat (String.length a)) = a).
  { intros a b. unfold slice. rewrite length_app_string.
    destruct (Z.ltb_spec 0 0); [exfalso; lia|].
    destruct (Z.ltb_spec (Z.of_nat (String.length a)) 0); [exfalso; lia|].
    rewrite Z.min_l by lia. rewrite Z.min_l by lia.
    replace (Z.to_nat (Z.of_nat (String.length a) - 0)) with (String.length a) by lia.
    apply take_app. }
  replace (pageLocation page +:+ " " +:+ clause)
    with ((pageLocation page +:+ " ") +:+ clause).
  2:{ clear. induction (pageLocation page) as [|c s IH]; [reflexivity|].
      rewrite !append_cons, IH. reflexivity. }
  replace (Z.of_nat (String.length (pageLocation page)) + 1)
    with (Z.of_nat (String.length (pageLocation page +:+ " ")))
    by (rewrite length_app_string; simpl; lia).
  rewrite Hslice. now apply trim_space.
Qed.

Lemma captioned_location_base_name_witness :
  ∃ clause,
    tableCaptionClause captionedTable = Some clause
    ∧ location (extractRow false nepean captionedTable headedRow)
      = pageLocation nepean +:+ " " +:+ clause
    ∧ baseName (location (extractRow false nepean captionedTable headedRow))
      = pageLocation nepean.
Proof.
  apply (captioned_location_base_name false nepean captionedTable headedRow);
    reflexivity.
Defined.

(** ** More on the aggregation *)

Section MoreAggregatorFacts.

Variable moment : string → option Z.

Lemma insertSorted_perm x l l' : insertSorted moment x l = Some l' → l' ≡ₚ x :: l.
Proof.
  revert l'; induction l as [|y l IH]; intros l'; cbn [insertSorted].
  - intros [= <-]. reflexivity.
  - destruct (compareTimes moment x y) as [c|]; [|discriminate]. cbn [mbind option_bind].
    destruct (c <=? 0); [intros [= <-]; reflexivity|].
    destruct (insertSorted moment x l) as [l0|]; [|discriminate].
    intros [= <-]. rewrite (IH l0 eq_refl). apply perm_swap.
Qed.

Lemma sortByTime_perm l l' : sortByTime moment l = Some l' → l' ≡ₚ l.
Proof.
  revert l'; induction l as [|x l IH]; intros l'; cbn [sortByTime].
  - intros [= <-]. reflexivity.
  - destruct (sortByTime moment l) as [l0|]; [|discriminate]. cbn [mbind option_bind].
    intros H%insertSorted_perm. rewrite H, (IH l0 eq_refl). reflexivity.
Qed.

Lemma insertSorted_compares x y l l' :
  insertSorted moment x (y :: l) = Some l' → hasDash moment x = true ∧ hasDash moment y = true.
Proof.
  cbn [insertSorted]. unfold compareTimes, hasDash.
  destruct (getTime moment x); [|discriminate].
  destruct (getTime moment y); [|discriminate]. auto.
Qed.

Lemma insertSorted_total x l :
  hasDash moment x = true → Forall (fun y => hasDash moment y = true) l →
  is_Some (insertSorted moment x l).
Proof.
  unfold hasDash. intros Hx. induction 1 as [|y l Hy Hl IH]; cbn [insertSorted]; [eauto|].
  unfold compareTimes.
  destruct (getTime moment x); [|discriminate].
  destruct (getTime moment y); [|discriminate]. cbn [mbind option_bind].
  destruct (_ <=? 0); [eauto|]. destruct IH as [l' ->]. eauto.
Qed.

Lemma sortByTime_total xs :
  Forall (fun y => hasDash moment y = true) xs → is_Some (sortByTime moment xs).
Proof.
  induction 1 as [|x xs Hx Hxs [l Hl]]; cbn [sortByTime]; [eauto|].
  rewrite Hl. cbn [mbind option_bind]. apply insertSorted_total; [assumption|].
  rewrite (sortByTime_perm _ _ Hl). assumption.
Qed.

Lemma sortByTime_compared xs l :
  sortByTime moment xs = Some l →
  (length xs ≤ 1)%nat ∨ Forall (fun y => hasDash moment y = true) xs.
Proof.
  revert l; induction xs as [|x xs IH]; intros l; cbn [sortByTime]; [left; simpl; lia|].
  destruct (sortByTime moment xs) as [l0|] eqn:Hl0; [|discriminate]. cbn [mbind option_bind].
  intros Hl. destruct xs as [|y xs]; [left; simpl; lia|]. right.
  pose proof (sortByTime_perm _ _ Hl0) as Hperm.
  destruct l0 as [|z l0]; [apply Permutation_nil_cons in Hperm; contradiction|].
  apply insertSorted_compares in Hl as [Hx Hz].
  constructor; [assumption|].
  destruct (IH _ eq_refl) as [Hlen|Hall]; [|assumption].
  destruct xs; [|simpl in Hlen; lia].
  apply Permutation_singleton_r in Hperm as [= -> ->]. repeat constructor. assumption.
Qed.

(** X7: [sort] throws exactly when the day has two ranges or more and one
    of them holds neither a hyphen nor an en dash. *)
Theorem sort_throws_without_dash xs :
  sortByTime moment xs = None
  ↔ (2 ≤ length xs)%nat
    ∧ ∃ x, x ∈ xs ∧ includes "-" x = false ∧ includes "–" x = false.
Proof.
  split.
  - intros Hnone. split.
    + destruct xs as [|x [|y xs]]; [discriminate Hnone|discriminate Hnone|simpl; lia].
    + destruct (decide (Forall (fun y => hasDash moment y = true) xs)) as [Hall|Hnot].
      * apply sortByTime_total in Hall as [l Hl]. rewrite Hnone in Hl. discriminate Hl.
      * apply not_Forall_Exists in Hnot; [|apply _].
        apply Exists_exists in Hnot as (x & Hx & Hbad). exists x. split; [assumption|].
        apply (getTime_none moment). unfold hasDash in Hbad. simpl in Hbad.
        destruct (getTime moment x); [exfalso; auto|reflexivity].
  - intros (Hlen & x & Hx & Hbad%(getTime_none moment)).
    destruct (sortByTime moment xs) as [l|] eqn:Hl; [|reflexivity].
    apply sortByTime_compared in Hl as [Hle|Hall]; [lia|].
    rewrite Forall_forall in Hall. specialize (Hall x Hx).
    unfold hasDash in Hall. rewrite Hbad in Hall. discriminate Hall.
Qed.

Lemma addDay_fold_some acc a ds d0 d :
  foldl (addDay moment acc a) (Some d0) ds = Some d →
  ∀ day, day ∈ ds → is_Some (daySchedule moment acc a day).
Proof.
  revert d0; induction ds as [|day0 ds IH]; intros d0 Hd day Hday; [inversion Hday|].
  cbn [foldl] in Hd. unfold addDay at 2 in Hd. cbn [mbind option_bind] in Hd.
  destruct (daySchedule moment acc a day0) as [times|] eqn:Htimes;
    cbn [mbind option_bind] in Hd; [|rewrite addDay_failed in Hd; discriminate Hd].
  apply elem_of_cons in Hday as [->|Hday]; [rewrite Htimes; eauto|].
  eapply IH; eauto.
Qed.

Lemma addDay_fold_nonempty acc a ds d0 d :
  foldl (addDay moment acc a) (Some d0) ds = Some d →
  (∀ day times, d0 !! day = Some times → times ≠ []) →
  ∀ day times, d !! day = Some times → times ≠ [].
Proof.
  revert d0; induction ds as [|day0 ds IH]; intros d0 Hd H0; cbn [foldl] in Hd.
  - injection Hd as <-. assumption.
  - unfold addDay at 2 in Hd. cbn [mbind option_bind] in Hd.
    destruct (daySchedule moment acc a day0) as [times0|];
      cbn [mbind option_bind] in Hd; [|rewrite addDay_failed in Hd; discriminate Hd].
    eapply IH; [exact Hd|]. destruct times0 as [|t0 times0]; [assumption|].
    intros day times. destruct (decide (day0 = day)) as [->|Hne].
    + rewrite lookup_insert_eq. intros [= <-]. discriminate.
    + rewrite lookup_insert_ne by assumption. apply H0.
Qed.

Lemma addActivity_inv acc0 a acc :
  addActivity moment acc0 a = Some acc →
  ∃ days, foldl (addDay moment acc0 a) (Some ∅) defaultDays = Some days
    ∧ acc = assign (location a)
              {| locLink := link a; locHome := home a; locAddress := address a;
                 locCoordinates := coordinates a; locDays := days |} acc0.
Proof.
  unfold addActivity.
  destruct (foldl (addDay moment acc0 a) (Some ∅) defaultDays) as [days|]; [|discriminate].
  cbn [mbind option_bind]. intros [= <-]. eauto.
Qed.

Lemma resultsByLocation_snoc_inv results a acc :
  resultsByLocation moment (results ++ [a]) = Some acc →
  ∃ acc0, resultsByLocation moment results = Some acc0 ∧ addActivity moment acc0 a = Some acc.
Proof.
  rewrite resultsByLocation_snoc.
  destruct (resultsByLocation moment results) as [acc0|]; [|discriminate]. eauto.
Qed.

Lemma resultsByLocation_ranges results acc :
  resultsByLocation moment results = Some acc →
  (∀ name day, day ∈ defaultDays → dayList acc name day ≡ₚ rangesOf results name day)
  ∧ (∀ name loc day times,
       (name, loc) ∈ acc → locDays loc !! day = Some times → times ≠ []).
Proof.
  revert acc; induction results as [|a results IH] using rev_ind; intros acc Hacc.
  - injection Hacc as <-. split; [reflexivity|]. intros ? ? ? ? H. inversion H.
  - apply resultsByLocation_snoc_inv in Hacc as (acc0 & Hacc0 & Hadd).
    destruct (IH acc0 Hacc0) as [Hperm Hne].
    apply addActivity_inv in Hadd as (days & Hdays & ->).
    split.
    + intros name day Hday. unfold dayList. rewrite property_assign, rangesOf_snoc.
      case_decide as Hname; [|rewrite app_nil_r; apply Hperm, Hday].
      subst name. cbn [mbind option_bind locDays].
      destruct (addDay_fold moment acc0 a defaultDays ∅ defaultDays_NoDup
                  (addDay_fold_some _ _ _ _ _ Hdays)) as (days' & Hdays' & _ & Hin).
      rewrite Hdays in Hdays'. injection Hdays' as <-.
      specialize (Hin day Hday (lookup_empty _)).
      unfold daySchedule in Hin. apply sortByTime_perm in Hin.
      rewrite Hin. fold (dayList acc0 (location a) day). rewrite (Hperm _ _ Hday). reflexivity.
    + intros name loc day times [[= -> ->]|Hin]%elem_of_assign Htimes.
      * cbn [locDays] in Htimes.
        eapply (addDay_fold_nonempty _ _ _ _ _ Hdays); [|exact Htimes].
        intros ? ?. rewrite lookup_empty. discriminate.
      * eapply Hne; eauto.
Qed.

(** X8: when the aggregation succeeds, the ranges of a day of a location
    are the ranges the activities give to it, none lost and none twice,
    also when [getTime] reads no valid time in them; and no day holds an
    empty list. *)
Theorem aggregation_keeps_every_range results acc :
  resultsByLocation moment results = Some acc →
  (∀ name day, day ∈ defaultDays → dayList acc name day ≡ₚ rangesOf results name day)
  ∧ (∀ name loc day times,
       (name, loc) ∈ acc → locDays loc !! day = Some times → times ≠ []).
Proof. apply resultsByLocation_ranges. Qed.

Lemma resultsByLocation_locations results acc :
  resultsByLocation moment results = Some acc →
  ∀ name, is_Some (property name acc) ↔ ∃ a, a ∈ results ∧ location a = name.
Proof.
  revert acc; induction results as [|a results IH] using rev_ind; intros acc Hacc name.
  - injection Hacc as <-. split; [intros [? [=]]|intros (a & Ha & _); inversion Ha].
  - apply resultsByLocation_snoc_inv in Hacc as (acc0 & Hacc0 & Hadd).
    apply addActivity_inv in Hadd as (days & _ & ->).
    rewrite property_assign. case_decide as Hname.
    + split; [|eauto]. intros _. exists a. split; [|assumption].
      apply elem_of_app. right. now left.
    + rewrite (IH acc0 Hacc0 name). split; intros (b & Hb & Hloc); exists b; split; auto.
      * apply elem_of_app. now left.
      * apply elem_of_app in Hb as [Hb|Hb]; [assumption|].
        apply list_elem_of_singleton in Hb. congruence.
Qed.

Lemma elem_of_keys {A} name (object : list (string * A)) :
  name ∈ object.*1 ↔ is_Some (property name object).
Proof.
  induction object as [|[k v] object IH]; simpl.
  - split; [inversion 1|intros [? [=]]].
  - rewrite elem_of_cons, IH. destruct (String.eqb_spec k name) as [->|Hne].
    + split; eauto.
    + split; [intros [?|?]; [congruence|assumption]|auto].
Qed.

(** X9: when no activity is located at "__proto__" (assigning to that name
    sets the prototype of the object and adds no key) and the aggregation
    succeeds, the keys of its result are the locations of the activities:
    an activity gives its location an entry even when none of its schedule
    keys is a day of the week. *)
Theorem aggregation_locations results acc :
  forallb (fun a => negb (String.eqb (location a) "__proto__")) results = true →
  resultsByLocation moment results = Some acc →
  ∀ name, name ∈ acc.*1 ↔ ∃ a, a ∈ results ∧ location a = name.
Proof.
  intros _ Hacc name. rewrite elem_of_keys. now apply resultsByLocation_locations.
Qed.

(** X10: a location carries the link, the home page, the address and
    the coordinates of the last activity that names it. *)
Theorem aggregation_last_activity_wins before a after acc :
  resultsByLocation moment (before ++ a :: after) = Some acc →
  forallb (fun b => negb (String.eqb (location b) (location a))) after = true →
  ∃ loc, property (location a) acc = Some loc
    ∧ locLink loc = link a ∧ locHome loc = home a
    ∧ locAddress loc = address a ∧ locCoordinates loc = coordinates a.
Proof.
  revert acc; induction after as [|b after IH] using rev_ind; intros acc Hacc Hafter.
  - apply resultsByLocation_snoc_inv in Hacc as (acc0 & _ & Hadd).
    apply addActivity_inv in Hadd as (days & _ & ->).
    rewrite property_assign, decide_True by reflexivity. eexists. repeat split.
  - rewrite app_comm_cons, app_assoc in Hacc.
    apply resultsByLocation_snoc_inv in Hacc as (acc0 & Hacc0 & Hadd).
    apply addActivity_inv in Hadd as (days & _ & ->).
    rewrite forallb_app in Hafter. apply andb_true_iff in Hafter as [Hafter Hb].
    cbn [forallb] in Hb. rewrite andb_true_r in Hb. apply negb_true_iff in Hb.
    rewrite property_assign, decide_False.
    + apply (IH acc0 Hacc0 Hafter).
    + intros Heq. rewrite Heq, String.eqb_refl in Hb. discriminate Hb.
Qed.

End MoreAggregatorFacts.

Lemma aggregation_keeps_every_range_witness :
  (∀ name day, day ∈ defaultDays →
     dayList twoActivitiesAggregated name day ≡ₚ rangesOf twoActivities name day)
  ∧ (∀ name loc day times,
       (name, loc) ∈ twoActivitiesAggregated → locDays loc !! day = Some times → times ≠ []).
Proof.
  apply (aggregation_keeps_every_range moment12h twoActivities twoActivitiesAggregated).
  vm_compute. reflexivity.
Defined.

Lemma aggregation_locations_witness :
  "Nepean Sportsplex" ∈ twoActivitiesAggregated.*1
  ↔ ∃ a, a ∈ twoActivities ∧ location a = "Nepean Sportsplex".
Proof.
  apply (aggregation_locations moment12h twoActivities twoActivitiesAggregated).
  - reflexivity.
  - vm_compute. reflexivity.
Defined.

Lemma aggregation_last_activity_wins_witness :
  ∃ loc, property (location morningActivity) twoActivitiesAggregated = Some loc
    ∧ locLink loc = link morningActivity ∧ locHome loc = home morningActivity
    ∧ locAddress loc = address morningActivity
    ∧ locCoordinates loc = coordinates morningActivity.
Proof.
  apply (aggregation_last_activity_wins moment12h [fundayActivity] morningActivity []
           twoActivitiesAggregated).
  - vm_compute. reflexivity.
  - reflexivity.
Defined.

(** ** The date table in general *)

Section TableFacts.
Variable clock : nat → Z.


End TableFacts.

(** *** The keys of an aggregated schedule *)



Section KeysOfAggregation.
Variable moment : string → option Z.




End KeysOfAggregation.


(** ** Marking what is new *)

Lemma stars_S k : stars k +:+ "*" = stars (S k).
Proof.
  induction k as [|k IH]; [reflexivity|].
  change (stars (S k)) with ("*" +:+ stars k) at 1.
  rewrite append_assoc, IH. reflexivity.
Qed.

Lemma starredBy_refl r : starredBy 0 r r.
Proof. exists 0%nat. split; [lia|]. now rewrite append_nil_r. Qed.

Lemma starredBy_markRange m time r r' : starredBy m r r' → starredBy m r (markRange time r').
Proof.
  intros (k & Hk & ->). unfold markRange.
  destruct (startsWith time (r +:+ stars k)); [|exists k; auto].
  exists (S k). split; [lia|]. now rewrite append_assoc, stars_S.
Qed.

Lemma starredBy_trans r1 r2 r3 :
  starredBy 0 r1 r2 → starredBy 0 r2 r3 → starredBy 0 r1 r3.
Proof.
  intros (k & _ & ->) (j & _ & ->). exists (k + j)%nat. split; [lia|].
  rewrite append_assoc. f_equal. clear. induction k as [|k IH]; [reflexivity|].
  change (stars (S k) +:+ stars j = stars (S (k + j))).
  change (stars (S k)) with ("*" +:+ stars k).
  change (stars (S (k + j))) with ("*" +:+ stars (k + j)).
  rewrite append_assoc, IH. reflexivity.
Qed.

Lemma marked_refl loc : marked loc loc.
Proof.
  repeat split. intros day. destruct (locDays loc !! day) as [times|]; constructor.
  induction times; constructor; [apply starredBy_refl|assumption].
Qed.

Lemma marked_trans loc1 loc2 loc3 : marked loc1 loc2 → marked loc2 loc3 → marked loc1 loc3.
Proof.
  intros (H1 & H2 & H3 & H4 & H5) (G1 & G2 & G3 & G4 & G5).
  repeat split; try congruence. intros day. specialize (H5 day). specialize (G5 day).
  destruct H5 as [times1 times2 H5|]; inversion G5 as [? times3 G5'|]; subst; constructor.
  clear -H5 G5'. revert times3 G5'. induction H5; intros times3 G5'; inversion G5'; subst;
    constructor; eauto using starredBy_trans.
Qed.

Lemma annotated_refl current : annotated current current.
Proof. induction current; constructor; [split; [reflexivity|apply marked_refl]|assumption]. Qed.

Lemma annotated_trans c1 c2 c3 : annotated c1 c2 → annotated c2 c3 → annotated c1 c3.
Proof.
  intros H. revert c3. induction H as [|e1 e2 c1 c2 [Hn Hm] _ IH]; intros c3 G.
  - inversion G. constructor.
  - inversion G as [|? e3 ? c3' [Gn Gm] G']; subst. constructor; [|now apply IH].
    split; [congruence|eapply marked_trans; eauto].
Qed.

Lemma markLocation_marked short day time entry entry' :
  markLocation short day time entry = Some entry' →
  entry'.1 = entry.1 ∧ marked entry.2 entry'.2.
Proof.
  destruct entry as [name loc]. unfold markLocation.
  destruct (negb (includes short name)); [intros [= <-]; split; [reflexivity|apply marked_refl]|].
  destruct (dayValue loc day) as [|times|] eqn:Hvalue;
    [intros [= <-]; split; [reflexivity|apply marked_refl]| |discriminate].
  intros [= <-]. split; [reflexivity|]. repeat split. cbn [snd locDays]. intros day'.
  assert (Hday : locDays loc !! day = Some times).
  { unfold dayValue in Hvalue.
    repeat match type of Hvalue with
           | (if ?b then _ else _) = _ => destruct b; [repeat case_match; discriminate|]
           end.
    destruct (locDays loc !! day); [congruence|case_match; discriminate]. }
  destruct (decide (day = day')) as [<-|Hne].
  - rewrite lookup_insert_eq, Hday. constructor.
    clear. induction times as [|r times IH]; constructor; [|exact IH].
    apply starredBy_markRange, starredBy_refl.
  - rewrite lookup_insert_ne by assumption.
    destruct (locDays loc !! day') as [times'|]; constructor.
    induction times'; constructor; [apply starredBy_refl|assumption].
Qed.

Lemma mapM_cons_Some {A B} (f : A → option B) x l k :
  mapM f (x :: l) = Some k ↔ ∃ y k', f x = Some y ∧ mapM f l = Some k' ∧ k = y :: k'.
Proof.
  cbn [mapM]. destruct (f x) as [y|]; cbn [mbind option_bind];
    [|split; [discriminate|intros (? & ? & [=] & _)]].
  destruct (mapM f l) as [k'|]; cbn [mbind option_bind mret option_ret];
    [|split; [discriminate|intros (? & ? & _ & [=] & _)]].
  split; [intros [= <-]; eauto|intros (? & ? & [= <-] & [= <-] & ->); reflexivity].
Qed.

Lemma markKey_annotated key current current' :
  markKey key current = Some current' → annotated current current'.
Proof.
  unfold markKey. generalize (toString (split ["|"] key !! 0%nat))
    (toString (split ["|"] key !! 1%nat)) (toString (split ["|"] key !! 2%nat)).
  intros short day time. revert current'.
  induction current as [|entry current IH]; intros current'.
  - intros [= <-]. constructor.
  - intros (entry' & rest & Hentry & Hrest & ->)%mapM_cons_Some.
    constructor; [eapply markLocation_marked; eauto|now apply IH].
Qed.

Lemma weekday_lookup loc day :
  day ∈ defaultDays →
  dayValue loc day = match locDays loc !! day with Some times => Times times | None => Falsy end.
Proof.
  intros Hday.
  assert (H : forallb (fun d => negb (String.eqb d "link") && negb (String.eqb d "home")
                                && negb (String.eqb d "address")
                                && negb (String.eqb d "coordinates")
                                && negb (bool_decide (d ∈ inheritedNames)))
                defaultDays = true) by (vm_compute; reflexivity).
  rewrite forallb_forall in H. specialize (H day (proj1 (list_elem_of_In _ _) Hday)).
  repeat (apply andb_true_iff in H as [H ?]).
  unfold dayValue.
  repeat match goal with
         | G : negb ?b = true |- _ => apply negb_true_iff in G; rewrite G
         end.
  reflexivity.
Qed.

Lemma dayValue_weekday loc day : day ∈ defaultDays → dayValue loc day ≠ NoArray.
Proof.
  intros Hday. rewrite weekday_lookup by assumption.
  destruct (locDays loc !! day); discriminate.
Qed.

Lemma mapM_cons_eq {A B} (f : A → option B) x l :
  mapM f (x :: l) = match f x with
                    | Some y => match mapM f l with Some k => Some (y :: k) | None => None end
                    | None => None
                    end.
Proof. cbn [mapM]. destruct (f x); [|reflexivity]. cbn. destruct (mapM f l); reflexivity. Qed.

Lemma markKey_weekday key current :
  toString (split ["|"] key !! 1%nat) ∈ defaultDays → is_Some (markKey key current).
Proof.
  unfold markKey. generalize (toString (split ["|"] key !! 0%nat))
    (toString (split ["|"] key !! 2%nat)).
  intros short time Hday.
  induction current as [|[name loc] current [rest IH]]; [eexists; reflexivity|].
  rewrite mapM_cons_eq, IH. unfold markLocation.
  pose proof (dayValue_weekday loc _ Hday) as Hvalue.
  destruct (negb (includes short name)); [eauto|].
  destruct (dayValue loc _); [eauto|eauto|contradiction].
Qed.

Section AnnotationFacts.
Variable clock : nat → Z.

Lemma markNew_None entries n :
  forOf (markNew clock) entries None n = (None, n).
Proof. induction entries as [|entry entries IH]; [reflexivity|]. rewrite forOf_cons. apply IH. Qed.

Lemma markNew_Some schedule entry n :
  markNew clock (Some schedule) entry n
  = (if clock n - entry.2 <? NEW_TIMESLOT then markKey entry.1 schedule else Some schedule,
     S n).
Proof. reflexivity. Qed.

(** X14: the loop over [newTimes], for any entries and any schedule: it
    reads the clock once per entry until it ends or throws; when it ends,
    the schedule has the same locations in the same order, the same link,
    home, address and coordinates, the same days, and every range is the
    range it was, followed by stars; and it does end when the second piece
    of every key is a day of the week. *)
Theorem annotation_only_adds_stars newTimes current n :
  let result := markNewTimes clock newTimes current n in
  (n ≤ result.2 ≤ n + length newTimes)%nat
  ∧ (∀ current', result.1 = Some current' →
       annotated current current' ∧ result.2 = (n + length newTimes)%nat)
  ∧ (forallb weekdayKey newTimes = true → is_Some result.1).
Proof.
  unfold markNewTimes. cbv zeta.
  revert current n. induction newTimes as [|entry newTimes IH]; intros current n.
  - cbn [forOf mret Timed_ret fst snd length]. split; [lia|]. split; [|eauto].
    intros current' [= <-]. split; [apply annotated_refl|lia].
  - rewrite forOf_cons, markNew_Some. cbn [fst snd length].
    destruct (clock n - entry.2 <? NEW_TIMESLOT).
    + destruct (markKey entry.1 current) as [schedule|] eqn:Hkey.
      * destruct (IH schedule (S n)) as (Hn & Hsome & Hweek).
        split; [lia|]. split.
        -- intros current' H. destruct (Hsome current' H) as [Ha Hl]. split; [|lia].
           eapply annotated_trans; [eapply markKey_annotated; eauto|exact Ha].
        -- intros [_ H]%andb_true_iff. auto.
      * rewrite markNew_None. cbn [fst snd]. split; [lia|]. split; [discriminate|].
        intros [Hday _]%andb_true_iff. unfold weekdayKey in Hday.
        apply bool_decide_eq_true in Hday.
        destruct (markKey_weekday entry.1 current Hday) as [? H]. congruence.
    + destruct (IH current (S n)) as (Hn & Hsome & Hweek).
      split; [lia|]. split.
      * intros current' H. destruct (Hsome current' H) as [Ha Hl]. split; [assumption|lia].
      * intros [_ H]%andb_true_iff. auto.
Qed.

Lemma markNewTimes_old newTimes current n :
  (∀ j key date, newTimes !! j = Some (key, date) →
                 NEW_TIMESLOT ≤ clock (n + j) - date) →
  markNewTimes clock newTimes current n = (Some current, (n + length newTimes)%nat).
Proof.
  unfold markNewTimes. revert n. induction newTimes as [|[key date] newTimes IH]; intros n Hold.
  - cbn [forOf mret Timed_ret length]. f_equal. lia.
  - rewrite forOf_cons, markNew_Some. cbn [fst snd length].
    pose proof (Hold 0%nat key date eq_refl) as H0. rewrite Nat.add_0_r in H0.
    destruct (Z.ltb_spec (clock n - date) NEW_TIMESLOT) as [|_]; [lia|].
    rewrite IH; [f_equal; lia|].
    intros j key' date' Hj. specialize (Hold (S j) key' date' Hj).
    now replace (S n + j)%nat with (n + S j)%nat by lia.
Qed.

(** X15: entries that are a week old or older when the loop comes to them
    leave the schedule as it is. *)
Theorem old_keys_leave_schedule_unmarked newTimes current n :
  (∀ j key date, newTimes !! j = Some (key, date) →
                 NEW_TIMESLOT ≤ clock (n + j) - date) →
  markNewTimes clock newTimes current n = (Some current, (n + length newTimes)%nat).
Proof. apply markNewTimes_old. Qed.

End AnnotationFacts.

(** *** Pieces of a text *)

Lemma hasChar_app c a b : hasChar c (a +:+ b) = hasChar c a || hasChar c b.
Proof.
  induction a as [|x a IH]; [reflexivity|].
  rewrite append_cons. simpl. rewrite IH. apply orb_assoc.
Qed.

(** [t] is a piece of [s]. *)
Lemma baseName_piece locationName :
  ∃ a b, locationName = a +:+ baseName locationName +:+ b.
Proof.
  unfold baseName, slice, trim.
  set (j := Z.to_nat _). set (k := Z.to_nat _).
  destruct (trimStart_suffix (take j (drop k locationName))) as [a1 Ha1].
  destruct (trimEnd_prefix (trimStart (take j (drop k locationName)))) as [b1 Hb1].
  exists (take k locationName +:+ a1), (b1 +:+ drop j (drop k locationName)).
  rewrite append_assoc, <- (append_assoc _ b1), <- Hb1, <- (append_assoc a1), <- Ha1.
  rewrite <- take_drop_string. apply take_drop_string.
Qed.

Lemma barFree_baseName locationName :
  barFree locationName = true → barFree (baseName locationName) = true.
Proof.
  unfold barFree. destruct (baseName_piece locationName) as (a & b & H).
  rewrite H at 1. rewrite !hasChar_app, !negb_true_iff.
  intros [_ [H' _]%orb_false_elim]%orb_false_elim. exact H'.
Qed.

Lemma startsWith_refl s : startsWith s s = true.
Proof. induction s as [|c s IH]; [reflexivity|]. apply startsWith_cons. auto. Qed.

Lemma includes_baseName locationName : includes (baseName locationName) locationName = true.
Proof.
  destruct (baseName_piece locationName) as (a & b & H). rewrite H at 2.
  apply includes_app_r, includes_app_l, includes_here, startsWith_refl.
Qed.

Lemma startsWith_trans a b c :
  startsWith a b = true → startsWith b c = true → startsWith a c = true.
Proof.
  revert b c; induction a as [|x a IH]; intros b c; [reflexivity|].
  destruct b as [|y b]; [discriminate|]. destruct c as [|z c]; [discriminate|].
  rewrite !startsWith_cons. intros [-> H1] [-> H2]. split; [reflexivity|eauto].
Qed.

Lemma upTo_prefix seps s : startsWith (upTo seps s) s = true.
Proof.
  induction s as [|c s IH]; [reflexivity|]. cbn [upTo].
  destruct (stripAny seps (String c s)); [reflexivity|].
  apply startsWith_cons. auto.
Qed.

(** *** Splitting a key *)

Lemma split_go_enough seps fuel1 fuel2 s :
  (String.length s < fuel1)%nat → (String.length s < fuel2)%nat →
  split_go fuel1 seps s = split_go fuel2 seps s.
Proof.
  revert fuel2 s; induction fuel1 as [|fuel1 IH]; intros fuel2 s H1 H2; [lia|].
  destruct fuel2 as [|fuel2]; [lia|].
  destruct s as [|c s]; [reflexivity|]. rewrite !split_go_S. simpl in H1, H2.
  destruct (stripAny seps (String c s)) as [rest|] eqn:Hrest.
  - apply stripAny_shorter in Hrest. simpl in Hrest. f_equal. apply IH; lia.
  - rewrite (IH fuel2 s) by lia. reflexivity.
Qed.

Lemma split_cons seps c s :
  split seps (String c s)
  = match stripAny seps (String c s) with
    | Some rest => "" :: split seps rest
    | None =>
        match split seps s with
        | piece :: pieces => String c piece :: pieces
        | [] => [String c ""]
        end
    end.
Proof.
  unfold split. rewrite split_go_S.
  destruct (stripAny seps (String c s)) as [rest|] eqn:Hrest.
  - apply stripAny_shorter in Hrest. f_equal. apply split_go_enough; simpl in *; lia.
  - reflexivity.
Qed.

Lemma split_bar a rest :
  barFree a = true → split ["|"] (a +:+ "|" +:+ rest) = a :: split ["|"] rest.
Proof.
  unfold barFree. rewrite negb_true_iff.
  induction a as [|c a IH]; intros Ha.
  - rewrite append_empty. change ("|" +:+ rest) with (String "|" rest).
    rewrite split_cons. reflexivity.
  - simpl in Ha. apply orb_false_elim in Ha as [Hc Ha].
    rewrite append_cons, split_cons, (IH Ha).
    cbn [stripAny stripPrefix]. rewrite Hc. reflexivity.
Qed.

Lemma split_key name day time :
  barFree name = true → barFree day = true →
  let pieces := split ["|"] (name +:+ "|" +:+ day +:+ "|" +:+ time) in
  toString (pieces !! 0%nat) = name ∧ toString (pieces !! 1%nat) = day
  ∧ toString (pieces !! 2%nat) = upTo ["|"] time.
Proof.
  intros Hname Hday. cbv zeta. rewrite (split_bar _ _ Hname), (split_bar _ _ Hday).
  split; [reflexivity|]. split; [reflexivity|].
  change (toString (split ["|"] time !! 0%nat) = upTo ["|"] time).
  rewrite <- head_lookup, split_head. reflexivity.
Qed.

Lemma weekday_barFree day : day ∈ defaultDays → barFree day = true.
Proof.
  intros Hday.
  assert (H : forallb barFree defaultDays = true) by (vm_compute; reflexivity).
  rewrite forallb_forall in H. apply H, list_elem_of_In, Hday.
Qed.

(** *** One key, one location *)

Lemma markLocation_starred (K : string → Prop) key name loc loc' :
  barFree name = true →
  toString (split ["|"] key !! 1%nat) ∈ defaultDays →
  starredWhere K name loc loc' →
  ∃ loc'',
    markLocation (toString (split ["|"] key !! 0%nat)) (toString (split ["|"] key !! 1%nat))
      (toString (split ["|"] key !! 2%nat)) (name, loc') = Some (name, loc'')
    ∧ starredWhere (fun x => K x ∨ x = key) name loc loc''.
Proof.
  intros Hname Hd Hstarred.
  assert (Hpieces : ∀ day r, day ∈ defaultDays → noveltyKey (baseName name) day r = key →
            toString (split ["|"] key !! 0%nat) = baseName name
            ∧ toString (split ["|"] key !! 1%nat) = day
            ∧ toString (split ["|"] key !! 2%nat) = upTo ["|"] (timeWithoutActivity r)).
  { intros day r Hday <-. unfold noveltyKey. apply split_key.
    - now apply barFree_baseName.
    - now apply weekday_barFree. }
  set (short := toString (split ["|"] key !! 0%nat)) in *.
  set (d := toString (split ["|"] key !! 1%nat)) in *.
  set (time := toString (split ["|"] key !! 2%nat)) in *.
  assert (Hkeep : (∀ day r, day ∈ defaultDays →
                     r ∈ from_option id [] (locDays loc !! day) →
                     noveltyKey (baseName name) day r ≠ key) →
                  starredWhere (fun x => K x ∨ x = key) name loc loc').
  { intros Hother day Hday. specialize (Hstarred day Hday).
    inversion Hstarred as [times times' Htimes Hl Hl'|]; constructor.
    assert (Hin : ∀ r, r ∈ times → noveltyKey (baseName name) day r ≠ key).
    { intros r Hr. apply Hother; [assumption|]. rewrite <- Hl. exact Hr. }
    clear -Htimes Hin. induction Htimes as [|r r' times times' (k & -> & Hk) _ IH]; constructor.
    - exists k. split; [reflexivity|]. intros [HK|Heq]; [auto|].
      exfalso. apply (Hin r); [now left|assumption].
    - apply IH. intros r0 Hr0. apply Hin. now right. }
  unfold markLocation.
  destruct (includes short name) eqn:Hshort; cbn [negb].
  2:{ exists loc'. split; [reflexivity|]. apply Hkeep. intros day r Hday _ Hkey.
      destruct (Hpieces day r Hday Hkey) as (Hs & _ & _).
      rewrite Hs, includes_baseName in Hshort. discriminate. }
  rewrite weekday_lookup by assumption.
  pose proof (Hstarred d Hd) as Hd'.
  inversion Hd' as [times times' Htimes Hl Hl'|Hl Hl'].
  2:{ exists loc'. split; [reflexivity|]. apply Hkeep. intros day r Hday Hr Hkey.
      destruct (Hpieces day r Hday Hkey) as (_ & Hday' & _).
      rewrite <- Hday', <- Hl in Hr. inversion Hr. }
  eexists. split; [reflexivity|]. intros day Hday. cbn [locDays].
  destruct (decide (d = day)) as [<-|Hne].
  - rewrite lookup_insert_eq, <- Hl.
    constructor. clear Hl Hl' Hd'.
    induction Htimes as [|r r' times times' (k & -> & Hk) _ IH]; constructor; [|exact IH].
    unfold markRange.
    destruct (startsWith time (r +:+ stars k)) eqn:Hstart.
    + exists (S k). split; [now rewrite append_assoc, stars_S|]. intros _. lia.
    + exists k. split; [reflexivity|]. intros [HK|Heq]; [auto|].
      destruct (Hpieces d r Hd Heq) as (_ & _ & Htime).
      assert (Hprefix : startsWith time (r +:+ stars k) = true).
      { apply startsWith_app_l. rewrite Htime.
        eapply startsWith_trans; [apply upTo_prefix|].
        rewrite timeWithoutActivity_upTo. apply upTo_prefix. }
      congruence.
  - rewrite lookup_insert_ne by assumption.
    specialize (Hstarred day Hday).
    destruct Hstarred as [times1 times1' Htimes1|]; constructor.
    clear -Htimes1 Hpieces Hne Hday.
    induction Htimes1 as [|r r' times1 times1' (k & -> & Hk) _ IH]; constructor; [|exact IH].
    exists k. split; [reflexivity|]. intros [HK|Heq]; [auto|].
    destruct (Hpieces day r Hday Heq) as (_ & Hd' & _). congruence.
Qed.

Lemma markKey_starred (K : string → Prop) key current schedule :
  forallb (fun entry => barFree entry.1) current = true →
  toString (split ["|"] key !! 1%nat) ∈ defaultDays →
  Forall2 (fun entry entry' => entry'.1 = entry.1 ∧ starredWhere K entry.1 entry.2 entry'.2)
    current schedule →
  ∃ schedule',
    markKey key schedule = Some schedule'
    ∧ Forall2 (fun entry entry' =>
                 entry'.1 = entry.1
                 ∧ starredWhere (fun x => K x ∨ x = key) entry.1 entry.2 entry'.2)
        current schedule'.
Proof.
  intros Hnames Hday Hinv. unfold markKey.
  induction Hinv as [|[name loc] [name' loc'] current schedule [Hname Hloc] _ IH].
  - exists []. split; [reflexivity|constructor].
  - cbn [fst snd] in Hname, Hloc. subst name'.
    cbn [forallb fst] in Hnames. apply andb_true_iff in Hnames as [Hbar Hnames].
    destruct (IH Hnames) as (rest & Hrest & Hinv').
    destruct (markLocation_starred K key name loc loc' Hbar Hday Hloc) as (loc'' & Hmark & Hloc'').
    exists ((name, loc'') :: rest). split.
    + rewrite mapM_cons_eq, Hmark, Hrest. reflexivity.
    + constructor; [split; [reflexivity|exact Hloc'']|exact Hinv'].
Qed.

Lemma starredWhere_weaken (K K' : string → Prop) name loc loc' :
  (∀ x, K' x → K x) → starredWhere K name loc loc' → starredWhere K' name loc loc'.
Proof.
  intros HK H day Hday. specialize (H day Hday).
  destruct H as [times times' Htimes|]; constructor.
  induction Htimes as [|r r' times times' (k & -> & Hk) _ IH]; constructor; [|exact IH].
  exists k. split; [reflexivity|]. auto.
Qed.

Lemma Forall2_weaken {A B} (P Q : A → B → Prop) l k :
  (∀ x y, P x y → Q x y) → Forall2 P l k → Forall2 Q l k.
Proof. intros H. induction 1; constructor; auto. Qed.


Section FirstSighting.
Variable clock : nat → Z.

Lemma markNewTimes_starred newTimes (K : string → Prop) current schedule n :
  forallb (fun entry => barFree entry.1) current = true →
  forallb weekdayKey newTimes = true →
  Forall2 (fun entry entry' => entry'.1 = entry.1 ∧ starredWhere K entry.1 entry.2 entry'.2)
    current schedule →
  ∃ schedule',
    forOf (markNew clock) newTimes (Some schedule) n
    = (Some schedule', (n + length newTimes)%nat)
    ∧ Forall2 (fun entry entry' =>
                 entry'.1 = entry.1
                 ∧ starredWhere (fun x => K x ∨ newIn clock newTimes n x)
                     entry.1 entry.2 entry'.2)
        current schedule'.
Proof.
  intros Hnames. revert K schedule n.
  induction newTimes as [|[key date] newTimes IH]; intros K schedule n Hweek Hinv.
  - exists schedule. split; [cbn [forOf mret Timed_ret length]; f_equal; lia|].
    eapply Forall2_weaken; [|exact Hinv]. intros e e' [He Hs]. split; [assumption|].
    eapply starredWhere_weaken; [|exact Hs]. intros x [HK|(j & d & Hj & _)]; [assumption|].
    discriminate Hj.
  - cbn [forallb] in Hweek. apply andb_true_iff in Hweek as [Hday Hweek].
    unfold weekdayKey in Hday. apply bool_decide_eq_true in Hday. cbn [fst] in Hday.
    rewrite forOf_cons, markNew_Some. cbn [fst snd length].
    destruct (Z.ltb_spec (clock n - date) NEW_TIMESLOT) as [Hyoung|Hold].
    + destruct (markKey_starred K key current schedule Hnames Hday Hinv)
        as (schedule1 & -> & Hinv1).
      destruct (IH _ schedule1 (S n) Hweek Hinv1) as (schedule' & -> & Hinv').
      exists schedule'. split; [f_equal; lia|].
      eapply Forall2_weaken; [|exact Hinv']. intros e e' [He Hs]. split; [assumption|].
      eapply starredWhere_weaken; [|exact Hs].
      intros x [HK|(j & d & Hj & Hd)]; [now left; left|].
      destruct j as [|j].
      * injection Hj as <- <-. left. now right.
      * right. exists j, d. split; [exact Hj|].
        now replace (S n + j)%nat with (n + S j)%nat by lia.
    + destruct (IH K schedule (S n) Hweek Hinv) as (schedule' & -> & Hinv').
      exists schedule'. split; [f_equal; lia|].
      eapply Forall2_weaken; [|exact Hinv']. intros e e' [He Hs]. split; [assumption|].
      eapply starredWhere_weaken; [|exact Hs].
      intros x [HK|(j & d & Hj & Hd)]; [now left|].
      destruct j as [|j].
      * injection Hj as <- <-. rewrite Nat.add_0_r in Hd. lia.
      * right. exists j, d. split; [exact Hj|].
        now replace (S n + j)%nat with (n + S j)%nat by lia.
Qed.

Lemma starredWhere_refl name loc : starredWhere (fun _ => False) name loc loc.
Proof.
  intros day _. destruct (locDays loc !! day) as [times|]; constructor.
  induction times as [|r times IH]; constructor; [|exact IH].
  exists 0%nat. split; [now rewrite append_nil_r|contradiction].
Qed.

(** X16: when no location name holds a "|" and the second piece of every
    key is a day of the week, the loop ends, and every range of a week day
    whose key is an entry less than a week old has at least one star: the key
    is split back into the base name, which the location name includes, the
    day, and a text the range starts with. *)
Theorem new_keys_mark_their_ranges newTimes current n :
  forallb (fun entry => barFree entry.1) current = true →
  forallb weekdayKey newTimes = true →
  ∃ current',
    markNewTimes clock newTimes current n = (Some current', (n + length newTimes)%nat)
    ∧ Forall2 (fun entry entry' =>
                 entry'.1 = entry.1
                 ∧ starredWhere (newIn clock newTimes n) entry.1 entry.2 entry'.2)
        current current'.
Proof.
  intros Hnames Hweek.
  destruct (markNewTimes_starred newTimes (fun _ => False) current current n Hnames Hweek)
    as (current' & Hrun & Hinv).
  { clear. induction current as [|e current IH]; constructor; [|exact IH].
    split; [reflexivity|apply starredWhere_refl]. }
  exists current'. split; [exact Hrun|].
  eapply Forall2_weaken; [|exact Hinv]. intros e e' [He Hs]. split; [assumption|].
  eapply starredWhere_weaken; [|exact Hs]. intros x Hx. right. exact Hx.
Qed.

End FirstSighting.

(** *** The table and the loop together *)

Lemma elem_of_firstOccurrences key keys : key ∈ firstOccurrences keys ↔ key ∈ keys.
Proof.
  induction keys as [|k keys IH]; [reflexivity|]. cbn [firstOccurrences].
  rewrite !elem_of_cons, list_elem_of_In, filter_In, <- list_elem_of_In, IH.
  destruct (String.eqb_spec key k) as [->|Hne]; simpl; [tauto|]. intuition congruence.
Qed.

Lemma entriesOf_lookup newTimes current j key date :
  entriesOf newTimes current !! j = Some (key, date) →
  key ∈ keysWith baseName current ∧ date = from_option id 0 (newTimes !! key).
Proof.
  unfold entriesOf. rewrite list_lookup_fmap.
  destruct (firstOccurrences (keysWith baseName current) !! j) as [k|] eqn:Hk; [|discriminate].
  intros [= <- <-]. split; [|reflexivity].
  apply elem_of_firstOccurrences, list_elem_of_lookup. eauto.
Qed.




Section AnnotateFacts.
Variable clock : nat → Z.

Lemma annotate_eq previous current n :
  annotate clock previous current n
  = let table := (buildDateTable clock previous current n).1 in
    let n1 := (buildDateTable clock previous current n).2 in
    let run := markNewTimes clock (entriesOf table current) current n1 in
    ((table, run.1), run.2).
Proof.
  unfold annotate, mbind, Timed_bind, mret, Timed_ret. cbv zeta.
  destruct (buildDateTable clock previous current n) as [table n1]. cbn [fst snd].
  destruct (markNewTimes clock (entriesOf table current) current n1). reflexivity.
Qed.


(** X18: when every key of the schedule is in the previous table with a
    date that is not 0 and is a week old or older, the schedule is left as
    it is, the keys keep their dates, and the clock is read once per
    distinct key, by the loop only. *)
Theorem known_schedule_is_left_unmarked previous current n :
  (∀ key, key ∈ keysWith baseName current →
          ∃ date, previous !! key = Some date ∧ date ≠ 0
                  ∧ ∀ i, NEW_TIMESLOT ≤ clock i - date) →
  (annotate clock previous current n).1.2 = Some current
  ∧ (∀ key, key ∈ keysWith baseName current →
            (annotate clock previous current n).1.1 !! key = previous !! key)
  ∧ (annotate clock previous current n).2
    = (n + length (firstOccurrences (keysWith baseName current)))%nat.
Proof.
  intros Hknown. rewrite annotate_eq. cbv zeta. cbn [fst snd].
  pose proof (buildDateTable_keys clock previous current n) as Hkeys.
  pose proof (stampKeys_spec clock previous (keysWith baseName current) ∅ n) as Hspec.
  cbv zeta in Hspec. rewrite <- Hkeys in Hspec. destruct Hspec as (_ & _ & Hin).
  assert (Hn1 : (buildDateTable clock previous current n).2 = n).
  { rewrite Hkeys. apply stampKeys_no_reading. intros key Hkey.
    destruct (Hknown key Hkey) as (date & H1 & H2 & _). eauto. }
  set (table := (buildDateTable clock previous current n).1) in *.
  assert (Htable : ∀ key, key ∈ keysWith baseName current → table !! key = previous !! key).
  { intros key Hkey. specialize (Hin key Hkey).
    destruct (Hknown key Hkey) as (date & Hdate & Hne & _). rewrite Hdate in Hin |- *.
    destruct (Z.eqb_spec date 0); [contradiction|assumption]. }
  rewrite Hn1, markNewTimes_old.
  - cbn [fst snd]. split; [reflexivity|]. split; [exact Htable|].
    unfold entriesOf. now rewrite length_fmap.
  - intros j key date [Hkey ->]%entriesOf_lookup. rewrite (Htable key Hkey).
    destruct (Hknown key Hkey) as (date & -> & _ & Hold). apply Hold.
Qed.

End AnnotateFacts.

(** *** The examples *)

Lemma old_keys_leave_schedule_unmarked_witness :
  markNewTimes steadyClock seenLongAgo twoActivitiesAggregated 0%nat
  = (Some twoActivitiesAggregated, (0 + length seenLongAgo)%nat).
Proof.
  apply (old_keys_leave_schedule_unmarked steadyClock seenLongAgo twoActivitiesAggregated
           0%nat).
  intros [|[|j]] key date H; try discriminate H. injection H as <- <-.
  unfold NEW_TIMESLOT, steadyClock. lia.
Defined.

Lemma new_keys_mark_their_ranges_witness :
  ∃ current',
    markNewTimes steadyClock seenJustNow twoActivitiesAggregated 0%nat
    = (Some current', (0 + length seenJustNow)%nat)
    ∧ Forall2 (fun entry entry' =>
                 entry'.1 = entry.1
                 ∧ starredWhere (newIn steadyClock seenJustNow 0%nat)
                     entry.1 entry.2 entry'.2)
        twoActivitiesAggregated current'.
Proof.
  apply (new_keys_mark_their_ranges steadyClock seenJustNow twoActivitiesAggregated 0%nat).
  - vm_compute. reflexivity.
  - vm_compute. reflexivity.
Defined.


Lemma known_schedule_is_left_unmarked_witness :
  (annotate steadyClock seenBefore twoActivitiesAggregated 0%nat).1.2
  = Some twoActivitiesAggregated
  ∧ (∀ key, key ∈ keysWith baseName twoActivitiesAggregated →
            (annotate steadyClock seenBefore twoActivitiesAggregated 0%nat).1.1 !! key
            = seenBefore !! key)
  ∧ (annotate steadyClock seenBefore twoActivitiesAggregated 0%nat).2
    = (0 + length (firstOccurrences (keysWith baseName twoActivitiesAggregated)))%nat.
Proof.
  apply (known_schedule_is_left_unmarked steadyClock seenBefore twoActivitiesAggregated
           0%nat).
  intros key Hkey. apply list_elem_of_In in Hkey. vm_compute in Hkey.
  destruct Hkey as [<-|[<-|[]]]; exists 1600000000000;
    (split; [vm_compute; reflexivity|]); (split; [discriminate|]);
    intros i; unfold NEW_TIMESLOT, steadyClock; lia.
Defined.

(** ** Addresses *)

Lemma splitSpaces_go_drop k s : splitSpaces_go k s = splitSpaces (drop k s).
Proof.
  revert k; induction s as [|c s IH]; intros k; [destruct k; reflexivity|].
  destruct k as [|k]; [reflexivity|]. exact (IH k).
Qed.

Lemma splitSpaces_unfold s :
  splitSpaces s
  = match spaceWidth s with
    | O =>
        match s with
        | "" => [""]
        | String c s' =>
            match splitSpaces s' with
            | piece :: pieces => String c piece :: pieces
            | [] => [String c ""]
            end
        end
    | S k =>
        match spaceWidth (drop (S k) s) with
        | O => "" :: splitSpaces (drop (S k) s)
        | S _ => splitSpaces (drop (S k) s)
        end
    end.
Proof.
  destruct s as [|c s]; [reflexivity|]. unfold splitSpaces at 1. cbn [splitSpaces_go].
  destruct (spaceWidth (String c s)) as [|k]; [reflexivity|].
  rewrite (splitSpaces_go_drop k s). reflexivity.
Qed.

Lemma collapseSpaces_go_drop k s : collapseSpaces_go k s = collapseSpaces (drop k s).
Proof.
  revert k; induction s as [|c s IH]; intros k; [destruct k; reflexivity|].
  destruct k as [|k]; [reflexivity|]. exact (IH k).
Qed.

Lemma collapseSpaces_unfold s :
  collapseSpaces s
  = match spaceWidth s with
    | O =>
        match s with
        | "" => ""
        | String c s' => String c (collapseSpaces s')
        end
    | S k =>
        match spaceWidth (drop (S k) s) with
        | O => String " " (collapseSpaces (drop (S k) s))
        | S _ => collapseSpaces (drop (S k) s)
        end
    end.
Proof.
  destruct s as [|c s]; [reflexivity|]. unfold collapseSpaces at 1. cbn [collapseSpaces_go].
  destruct (spaceWidth (String c s)) as [|k]; [reflexivity|].
  rewrite (collapseSpaces_go_drop k s). reflexivity.
Qed.

Lemma splitSpaces_nonempty s : splitSpaces s ≠ [].
Proof.
  induction s as [s IH] using string_length_ind. rewrite splitSpaces_unfold.
  destruct (spaceWidth s) as [|k] eqn:Hk.
  - destruct s as [|c s]; [discriminate|]. destruct (splitSpaces s); discriminate.
  - destruct (spaceWidth (drop (S k) s)); [discriminate|].
    apply IH. rewrite length_drop. pose proof (spaceWidth_le s). lia.
Qed.

Lemma join_cons sep p q ps : join sep (p :: q :: ps) = p +:+ sep +:+ join sep (q :: ps).
Proof. reflexivity. Qed.

(** X19: the two idioms of the source for white space agree:
    [s.split(/\s+/).join(' ')], used for the address, is
    [s.replace(/\s+/g, ' ')], used for the activity name. *)
Theorem split_join_collapses (s : string) :
  join " " (splitSpaces s) = collapseSpaces s.
Proof.
  induction s as [s IH] using string_length_ind.
  rewrite splitSpaces_unfold, collapseSpaces_unfold.
  destruct (spaceWidth s) as [|k] eqn:Hk.
  - destruct s as [|c s]; [reflexivity|].
    pose proof (splitSpaces_nonempty s) as Hne.
    rewrite <- (IH s) by (simpl; lia).
    destruct (splitSpaces s) as [|p [|q ps]]; [contradiction|reflexivity|].
    rewrite !join_cons. reflexivity.
  - assert (Hlen : (String.length (drop (S k) s) < String.length s)%nat)
      by (rewrite length_drop; pose proof (spaceWidth_le s); lia).
    rewrite <- (IH _ Hlen).
    destruct (spaceWidth (drop (S k) s)); [|reflexivity].
    pose proof (splitSpaces_nonempty (drop (S k) s)) as Hne.
    destruct (splitSpaces (drop (S k) s)) as [|p ps]; [contradiction|].
    rewrite join_cons. reflexivity.
Qed.

Lemma splitSpaces_word w : spaceFree w = true → splitSpaces w = [w].
Proof.
  induction w as [|c w IH]; [reflexivity|]. cbn [spaceFree].
  intros [Hc Hw]%andb_true_iff. apply Nat.eqb_eq in Hc.
  rewrite splitSpaces_unfold, Hc, (IH Hw). reflexivity.
Qed.

Lemma spaceWidth_word_space w rest :
  spaceFree w = true → w ≠ "" → spaceWidth (w +:+ " " +:+ rest) = 0%nat.
Proof.
  intros Hw Hne. change (" " +:+ rest) with (String " " rest).
  rewrite spaceWidth_app_ascii; [|assumption|apply Nat.ltb_lt; vm_compute; reflexivity].
  destruct w as [|c w]; [congruence|]. cbn [spaceFree] in Hw.
  apply andb_true_iff in Hw as [Hc _]. now apply Nat.eqb_eq in Hc.
Qed.

Lemma splitSpaces_word_space w rest :
  spaceFree w = true → spaceWidth rest = 0%nat →
  splitSpaces (w +:+ " " +:+ rest) = w :: splitSpaces rest.
Proof.
  intros Hw Hrest. induction w as [|c w IH].
  - rewrite append_empty. change (" " +:+ rest) with (String " " rest).
    rewrite splitSpaces_unfold. change (spaceWidth (String " " rest)) with 1%nat.
    cbn [drop]. rewrite Hrest. reflexivity.
  - rewrite splitSpaces_unfold, spaceWidth_word_space by (assumption || discriminate).
    cbn [spaceFree] in Hw. apply andb_true_iff in Hw as [_ Hw].
    rewrite append_cons, (IH Hw). reflexivity.
Qed.

Lemma join_words_head w words :
  isWord w = true → spaceWidth (join " " (w :: words)) = 0%nat.
Proof.
  unfold isWord. intros [Hne Hw]%andb_true_iff.
  assert (Hw0 : w ≠ "") by (intros ->; discriminate Hne).
  destruct words as [|w' words].
  - destruct w as [|c w]; [congruence|]. cbn [spaceFree] in Hw.
    apply andb_true_iff in Hw as [Hc _]. now apply Nat.eqb_eq in Hc.
  - rewrite join_cons. now apply spaceWidth_word_space.
Qed.

Lemma splitSpaces_join words :
  words ≠ [] → forallb isWord words = true → splitSpaces (join " " words) = words.
Proof.
  induction words as [|w words IH]; [contradiction|]. intros _ Hwords.
  cbn [forallb] in Hwords. apply andb_true_iff in Hwords as [Hw Hwords].
  pose proof Hw as Hw'. unfold isWord in Hw'. apply andb_true_iff in Hw' as [_ Hfree].
  destruct words as [|w' words]; [now apply splitSpaces_word|].
  rewrite join_cons, splitSpaces_word_space, IH; try assumption; try discriminate.
  - reflexivity.
  - cbn [forallb] in Hwords. apply andb_true_iff in Hwords as [Hw'' _].
    now apply join_words_head.
Qed.

(** X20: on an address made of words with one space between them,
    [addressWithoutPostalCode] drops the last two words, and gives the
    empty text when there are no more than two. *)
Theorem address_without_last_two_words (words : list string) :
  forallb isWord words = true →
  addressWithoutPostalCode (join " " words)
  = join " " (firstn (length words - 2) words)
  ∧ ((length words ≤ 2)%nat → addressWithoutPostalCode (join " " words) = "").
Proof.
  intros Hwords.
  assert (H : addressWithoutPostalCode (join " " words)
              = join " " (firstn (length words - 2) words)).
  { unfold addressWithoutPostalCode, sliceArray0.
    destruct words as [|w words]; [reflexivity|].
    rewrite splitSpaces_join by (assumption || discriminate).
    change (-2 <? 0) with true. cbv iota. f_equal. f_equal. lia. }
  split; [exact H|]. intros Hlen. rewrite H.
  replace (length words - 2)%nat with 0%nat by lia. reflexivity.
Qed.

Lemma address_without_last_two_words_witness :
  addressWithoutPostalCode (join " " woodroffe)
  = join " " (firstn (length woodroffe - 2) woodroffe)
  ∧ ((length woodroffe ≤ 2)%nat → addressWithoutPostalCode (join " " woodroffe) = "").
Proof. apply (address_without_last_two_words woodroffe). reflexivity. Defined.
